(** * nx_csv: record mapping readers and writers over the csv tokenizer

    A shallow embedding of [nx_csv/__init__.py].  Generators are modelled by
    the finite list of values they yield, Python objects by records whose
    fields carry the attribute names of the source, and the effects on the
    underlying streams by an explicit event log. *)

From stdpp Require Import gmap strings list pretty.
From Stdlib Require Import Ascii.

Open Scope string_scope.
Open Scope list_scope.
Open Scope nat_scope.

(** ** Rows and numbered lines *)

(** One tokenized record: the ordered field texts. *)
Abbreviation row := (list string).

(** [class Line(rdr_utils.MutableLine, list)]: a list of fields that also
    carries the [line_num] it was constructed with, [Line(rec, n)]. *)
Record Line := mkLine { data : row; line_num : nat }.

(** A run of [csv.reader(fobj, **kwargs)].  The tokenizer belongs to the
    standard library; a run is described by the records it yields in order,
    each paired with the value of [rdr.line_num] once that record has been
    pulled, which is the number of source lines read so far. *)
Abbreviation csv_reader := (list (list string * nat)).

(** The counter of a real run grows with every record, because every record
    consumes at least one source line; [last_end] is the count before the
    first record of [rdr]. *)
Fixpoint csv_reader_ok (last_end : nat) (rdr : csv_reader) : bool :=
  match rdr with
  | [] => true
  | (_, rdr_line_num) :: rdr' =>
      bool_decide (last_end < rdr_line_num) && csv_reader_ok rdr_line_num rdr'
  end.

(** ** [reader_gen] *)

(** The inner generator [_(rdr)] of [reader_gen]:
<<
    last_end = 0
    for rec in rdr:
        result, last_end = Line(rec, last_end + 1), rdr.line_num
        yield result
>>
    [last_end] is the loop variable, threaded through the recursion. *)
Fixpoint reader_gen_inner (last_end : nat) (rdr : csv_reader) : list Line :=
  match rdr with
  | [] => []
  | (rec, rdr_line_num) :: rdr' =>
      mkLine rec (last_end + 1) :: reader_gen_inner rdr_line_num rdr'
  end.

(** [reader_gen]: number the records, then, when a [handler] is given, keep
    the results of [map(handler, rdr)] that are not [None]. *)
Definition reader_gen (rdr : csv_reader)
    (handler : option (Line → option Line)) : list Line :=
  let rdr := reader_gen_inner 0 rdr in
  match handler with
  | Some h => omap h rdr
  | None => rdr
  end.

(** The value of [last_end] when the record of index [i] is constructed. *)
Definition last_end_at (rdr : csv_reader) (i : nat) : nat :=
  match i with
  | 0 => 0
  | S j => default 0 (rdr.*2 !! j)
  end.

(** ** Exceptions and results *)

(** The exceptions the module raises or lets through.  The two [ValueError]s
    keep the arguments they are raised with. *)
Inductive exn :=
  | ValueError_arity (tag : string) (line expected actual : nat)
  | ValueError_include (msg : string) (extras : gset string)
  | OSError
  | CsvError
  | TempfileError
  | AttributeError.

Inductive result (A : Type) :=
  | Ok (a : A)
  | Raise (e : exn).
Arguments Ok {A} a.
Arguments Raise {A} e.

(** ** The readers of [rdr_utils] *)

Module rdr_utils.

(** The source of [rdr_utils] is not part of this repository.  Its readers
    are modelled from the specification (sections 3, 4.1 to 4.3) and agree
    with the doctests of [reader], [dict_reader] and [obj_reader]. *)

(** Modelled from the spec: the whitespace the ListMapper strips, taken as
    Python's [str.isspace] on the ASCII range: tab, line feed, vertical tab,
    form feed, carriage return, the four separators 28 to 31 and space. *)
Definition is_space (c : ascii) : bool :=
  let n := nat_of_ascii c in
  (9 <=? n) && (n <=? 13) || (28 <=? n) && (n <=? 31) || (n =? 32).

(** Modelled from the spec: stripping of leading whitespace ([str.lstrip]). *)
Fixpoint lstrip (s : string) : string :=
  match s with
  | EmptyString => EmptyString
  | String c s' => if is_space c then lstrip s' else s
  end.

(** Modelled from the spec: stripping of trailing whitespace
    ([str.rstrip]). *)
Fixpoint rstrip (s : string) : string :=
  match s with
  | EmptyString => EmptyString
  | String c s' =>
      match rstrip s' with
      | EmptyString => if is_space c then EmptyString else String c EmptyString
      | r => String c r
      end
  end.

(** Modelled from the spec: the whitespace policy of the ListMapper on one
    field.  Leading whitespace is stripped unless [leading_ws] is set,
    trailing whitespace unless [trailing_ws] is set. *)
Definition ws_policy (leading_ws trailing_ws : bool) (s : string) : string :=
  let s := if leading_ws then s else lstrip s in
  if trailing_ws then s else rstrip s.

(** Modelled from the spec: [rdr_utils.list_reader], the ListMapper of the
    specification, whose source is not part of this repository.  A record
    with no field is skipped when [ignore_blanks] is set; every other record
    is yielded with the whitespace policy applied to each field.  The line
    number of a record is never changed. *)
Definition list_reader (rdr : list Line)
    (leading_ws trailing_ws ignore_blanks : bool) : list Line :=
  omap (λ l,
    if ignore_blanks && bool_decide (data l = []) then None
    else Some (mkLine (ws_policy leading_ws trailing_ws <$> data l)
                      (line_num l))) rdr.

(** A record handed to the caller by the keyed readers: the key to value
    bindings (the items of the mapping, or the attributes of the constructed
    instance) together with the line number of the row it was built from. *)
Record Mapped := mkMapped { items : gmap string string; m_line_num : nat }.

(** What a run of a keyed reader did: the records it yielded, the records
    its [handler] was invoked with, and the exception that ended it. *)
Record run := mkRun {
  yielded : list Mapped;
  handled : list Mapped;
  raised : option exn
}.

Definition run_nil : run := mkRun [] [] None.

(** Modelled from the spec: the bindings of the values beyond the name
    list, each under the synthesized key [rest_key + str(index)], the index
    starting at zero. *)
Definition rest_bindings (rest_key : string) (extra : row)
    : list (string * string) :=
  imap (λ i v, (rest_key +:+ pretty i, v)) extra.

(** Modelled from the spec: the reconciliation policy of the KeyedMapper
    (inside [rdr_utils.dict_reader], not part of this repository).  With [N]
    names and [M] fields: equal counts zip names to values; [M < N] binds
    the missing trailing names to [rest_val], or fails as insufficient;
    [M > N] appends the extra values under the keys synthesized from
    [rest_key], or fails as too many.  The result keeps the bindings of the
    names apart from the synthesized ones. *)
Definition reconcile (names : list string) (rest_key rest_val : option string)
    (l : Line) : result (list (string * string) * list (string * string)) :=
  let N := length names in
  let M := length (data l) in
  if bool_decide (M = N) then Ok (zip names (data l), [])
  else if bool_decide (M < N) then
    match rest_val with
    | Some v => Ok (zip names (data l ++ replicate (N - M) v), [])
    | None => Raise (ValueError_arity "insufficient fields" (line_num l) N M)
    end
  else
    match rest_key with
    | Some k => Ok (zip names (take N (data l)),
                    rest_bindings k (drop N (data l)))
    | None => Raise (ValueError_arity "too many fields" (line_num l) N M)
    end.

(** Modelled from the spec: field renaming.  A name with an entry in
    [field_rename] becomes its output name, every other name passes through
    unchanged. *)
Definition rename (field_rename : option (gmap string string)) (k : string)
    : string :=
  match field_rename with
  | Some names => default k (names !! k)
  | None => k
  end.

(** Modelled from the spec: binding a sequence of pairs into a mapping, or
    onto an instance, one after the other, as successive item or attribute
    assignments: a later pair replaces an earlier one with the same key. *)
Definition bind_all (init : gmap string string)
    (bindings : list (string * string)) : gmap string string :=
  foldl (λ m b, <[b.1 := b.2]> m) init bindings.

(** Modelled from the spec: the bindings a reconciled record is emitted
    with, in order: the named ones under their renamed names, then the
    synthesized ones as they are (the emitted keys are the renamed names
    and the synthesized rest keys). *)
Definition output_bindings (field_rename : option (gmap string string))
    (rec : list (string * string) * list (string * string))
    : list (string * string) :=
  (prod_map (rename field_rename) id <$> rec.1) ++ rec.2.

(** The options shared by the keyed readers, with the defaults of the
    signatures of [dict_reader] and [obj_reader]. *)
Record options := mkOptions {
  leading_ws : bool;
  trailing_ws : bool;
  ignore_blanks : bool;
  rest_key : option string;
  rest_val : option string;
  ignore_rows_with_fields : bool;
  field_rename : option (gmap string string);
  handler : option (Mapped → option Mapped)
}.

Definition defaults : options :=
  mkOptions false false true None None true None None.

(** Passing one keyword argument beside the defaults. *)
Definition set_rest_key (k : string) (o : options) : options :=
  mkOptions (leading_ws o) (trailing_ws o) (ignore_blanks o) (Some k)
    (rest_val o) (ignore_rows_with_fields o) (field_rename o) (handler o).

Definition set_rest_val (v : string) (o : options) : options :=
  mkOptions (leading_ws o) (trailing_ws o) (ignore_blanks o) (rest_key o)
    (Some v) (ignore_rows_with_fields o) (field_rename o) (handler o).

Definition set_ignore_rows_with_fields (b : bool) (o : options) : options :=
  mkOptions (leading_ws o) (trailing_ws o) (ignore_blanks o) (rest_key o)
    (rest_val o) b (field_rename o) (handler o).

Definition set_field_rename (names : gmap string string) (o : options)
    : options :=
  mkOptions (leading_ws o) (trailing_ws o) (ignore_blanks o) (rest_key o)
    (rest_val o) (ignore_rows_with_fields o) (Some names) (handler o).

Definition set_handler (h : Mapped → option Mapped) (o : options) : options :=
  mkOptions (leading_ws o) (trailing_ws o) (ignore_blanks o) (rest_key o)
    (rest_val o) (ignore_rows_with_fields o) (field_rename o) (Some h).

(** The keys of a successfully reconciled record, in binding order: the
    renamed names, then the rest keys synthesized for the fields beyond the
    name list (none when the row is not longer than the name list). *)
Definition rest_keys (names : list string) (o : options) (l : Line)
    : list string :=
  match rest_key o with
  | Some k => (rest_bindings k (drop (length names) (data l))).*1
  | None => []
  end.

Definition output_keys (names : list string) (o : options) (l : Line)
    : list string :=
  (rename (field_rename o) <$> names) ++ rest_keys names o l.

(** Modelled from the spec: one record through steps 1 to 3 of the
    KeyedMapper.  Step 1 reconciles and may fail; step 2 drops a row whose
    field values equal the name list; step 3 renames the keys.  [None] is a
    row dropped at step 2. *)
Definition map_line (init : gmap string string) (names : list string)
    (o : options) (l : Line) : result (option Mapped) :=
  match reconcile names (rest_key o) (rest_val o) l with
  | Raise e => Raise e
  | Ok rec =>
      if ignore_rows_with_fields o && bool_decide (data l = names) then Ok None
      else Ok (Some (mkMapped
                 (bind_all init (output_bindings (field_rename o) rec))
                 (line_num l)))
  end.

(** Modelled from the spec: step 4 of the KeyedMapper.  The [handler], when
    set, sees the constructed record; [None] from it drops the record, any
    other value is yielded in its place. *)
Definition run_yield (o : options) (m : Mapped) (r : run) : run :=
  match handler o with
  | None => mkRun (m :: yielded r) (handled r) (raised r)
  | Some h =>
      match h m with
      | None => mkRun (yielded r) (m :: handled r) (raised r)
      | Some m' => mkRun (m' :: yielded r) (m :: handled r) (raised r)
      end
  end.

(** Modelled from the spec: the records after the header, each through
    steps 1 to 4, in order; the first failure ends the run. *)
Fixpoint keyed_rows (init : gmap string string) (names : list string)
    (o : options) (rdr : list Line) : run :=
  match rdr with
  | [] => run_nil
  | l :: rdr' =>
      match map_line init names o l with
      | Raise e => mkRun [] [] (Some e)
      | Ok None => keyed_rows init names o rdr'
      | Ok (Some m) => run_yield o m (keyed_rows init names o rdr')
      end
  end.

(** Modelled from the spec: the KeyedMapper and the AttributeMapper over the
    output of the ListMapper.  Without [fields] the first record is consumed
    as the header and not yielded.  [init] is what the bindings are assigned
    onto: an empty mapping, or the attributes of a fresh [ctor()]. *)
Definition keyed_reader (init : gmap string string) (rdr : list Line)
    (fields : option (list string)) (o : options) : run :=
  let rdr := list_reader rdr (leading_ws o) (trailing_ws o) (ignore_blanks o) in
  match fields with
  | Some names => keyed_rows init names o rdr
  | None =>
      match rdr with
      | [] => run_nil
      | header :: rdr' => keyed_rows init (data header) o rdr'
      end
  end.

(** Modelled from the spec: [rdr_utils.dict_reader] binds into a new
    mapping. *)
Definition dict_reader (rdr : list Line) (fields : option (list string))
    (o : options) : run :=
  keyed_reader ∅ rdr fields o.

(** Modelled from the spec: [rdr_utils.obj_reader] binds onto a fresh
    [ctor()], given by the attributes the constructor sets. *)
Definition obj_reader (rdr : list Line) (ctor : unit → gmap string string)
    (fields : option (list string)) (o : options) : run :=
  keyed_reader (ctor ()) rdr fields o.

End rdr_utils.

(** ** [reader], [dict_reader], [obj_reader] *)

(** [reader]: the numbered records of [reader_gen] through
    [rdr_utils.list_reader]. *)
Definition reader (rdr : csv_reader) (handler : option (Line → option Line))
    (leading_ws trailing_ws ignore_blanks : bool) : list Line :=
  rdr_utils.list_reader (reader_gen rdr handler)
    leading_ws trailing_ws ignore_blanks.

(** [dict_reader]: [raw_handler] goes to [reader_gen], every other option to
    [rdr_utils.dict_reader]. *)
Definition dict_reader (rdr : csv_reader) (fields : option (list string))
    (raw_handler : option (Line → option Line)) (o : rdr_utils.options)
    : rdr_utils.run :=
  rdr_utils.dict_reader (reader_gen rdr raw_handler) fields o.

(** [obj_reader]: as [dict_reader], with the constructor of the records. *)
Definition obj_reader (rdr : csv_reader) (ctor : unit → gmap string string)
    (fields : option (list string))
    (raw_handler : option (Line → option Line)) (o : rdr_utils.options)
    : rdr_utils.run :=
  rdr_utils.obj_reader (reader_gen rdr raw_handler) ctor fields o.

(** ** Streams, events and the monad of the methods *)

(** A stream object is known by its identity. *)
Abbreviation handle := nat.

(** What the writers do to the world outside them, in order: a stream is
    opened by [nx_fsutils.open_src_file], a stream is closed, a row goes to
    the [csv.writer] bound to a stream, a spooled temporary file is made. *)
Inductive event :=
  | EvOpen (fobj : handle)
  | EvClose (fobj : handle)
  | EvRow (fobj : handle) (data : row)
  | EvSpool.

Global Instance event_eq_dec : EqDecision event.
Proof. solve_decision. Defined.

(** Modelled from the spec: the [src] argument of a writer, by what
    [nx_fsutils.open_src_file] makes of it.  That function is not part of
    this repository; it opens paths, accepts streams that are already open,
    and fails with an I/O error when a path cannot be opened (section 6).
    It returns the stream together with the flag [managed], which [Writer]
    consults before it closes the stream: set for a stream the call opened,
    clear for a stream the caller supplied. *)
Inductive source :=
  | Path (fobj : handle)
  | BadPath
  | Stream (fobj : handle).

(** A method body: it reads and updates [self], appends to the log of
    events, and returns or raises.  What was done before an exception
    stays done. *)
Definition M (Self A : Type) : Type :=
  Self * list event → result A * (Self * list event).

Global Instance M_ret {Self} : MRet (M Self) := λ A a s, (Ok a, s).

Global Instance M_bind {Self} : MBind (M Self) := λ A B f m s,
  match m s with
  | (Ok a, s') => f a s'
  | (Raise e, s') => (Raise e, s')
  end.

Definition raise {Self A} (e : exn) : M Self A := λ s, (Raise e, s).

(** [try: m except: h; raise]: the handler runs on the state the body
    left, then the exception of the body goes on. *)
Definition try_except_raise {Self A} (m : M Self A) (h : M Self unit)
    : M Self A :=
  λ s, match m s with
       | (Ok a, s') => (Ok a, s')
       | (Raise e, s') =>
           match h s' with
           | (Ok _, s'') => (Raise e, s'')
           | (Raise e', s'') => (Raise e', s'')
           end
       end.

Definition gets {Self A} (f : Self → A) : M Self A := λ s, (Ok (f s.1), s).

Definition modify {Self} (f : Self → Self) : M Self unit :=
  λ s, (Ok (), (f s.1, s.2)).

Definition emit {Self} (ev : event) : M Self unit :=
  λ s, (Ok (), (s.1, s.2 ++ [ev])).

(** Modelled from the spec: [nx_fsutils.open_src_file(src, mode, ...)], by
    the cases of [source]. *)
Definition open_src_file {Self} (src : source) : M Self (handle * bool) :=
  match src with
  | Path fobj => emit (EvOpen fobj) ;; mret (fobj, true)
  | BadPath => raise OSError
  | Stream fobj => mret (fobj, false)
  end.

(** [fobj.close()] and [obj.writerow(data)]; on [None] the attribute is
    missing. *)
Definition file_close {Self} (fobj : option handle) : M Self unit :=
  match fobj with
  | Some h => emit (EvClose h)
  | None => raise AttributeError
  end.

Definition writerow {Self} (obj : option handle) (data : row) : M Self unit :=
  match obj with
  | Some h => emit (EvRow h data)
  | None => raise AttributeError
  end.

(** [csv.writer(fobj, **kwargs)]: the sink over the stream, or an error when
    the keyword arguments are not accepted ([kwargs_ok] is false). *)
Definition csv_writer {Self} (fobj : handle) (kwargs_ok : bool)
    : M Self handle :=
  if kwargs_ok then mret fobj else raise CsvError.

(** ** [class Writer] *)

Module Writer.

Record t := mk {
  handler : option (row → option row);
  _fobj : option handle;
  _managed : bool;
  _obj : option handle;
  _closed : bool
}.

(** A new instance: the class attribute [_closed = True], nothing else
    set yet. *)
Definition new : t := mk None None false None true.

Definition set_handler (v : option (row → option row)) (self : t) : t :=
  mk v (_fobj self) (_managed self) (_obj self) (_closed self).
Definition set_fobj (v : option handle) (self : t) : t :=
  mk (handler self) v (_managed self) (_obj self) (_closed self).
Definition set_managed (v : bool) (self : t) : t :=
  mk (handler self) (_fobj self) v (_obj self) (_closed self).
Definition set_obj (v : option handle) (self : t) : t :=
  mk (handler self) (_fobj self) (_managed self) v (_closed self).
Definition set_closed (v : bool) (self : t) : t :=
  mk (handler self) (_fobj self) (_managed self) (_obj self) v.

(**
<<
    def close(self):
        if not self._closed:
            self._closed = True
            self._fobj, fobj = None, self._fobj
            self._obj = None
            if self._managed:
                fobj.close()
>> *)
Definition close : M t unit :=
  closed ← gets _closed;
  if negb closed then
    modify (set_closed true) ;;
    fobj ← gets _fobj;
    modify (set_fobj None) ;;
    modify (set_obj None) ;;
    managed ← gets _managed;
    if (managed : bool) then file_close fobj else mret ()
  else mret ().

(**
<<
    def write(self, data):
        handler = self.handler
        if handler:
            data = handler(data)
            if data is None:
                return
        self._obj.writerow(data)
>> *)
Definition write (data : row) : M t unit :=
  handler ← gets handler;
  match handler with
  | Some handler =>
      match handler data with
      | None => mret ()
      | Some data => obj ← gets _obj; writerow obj data
      end
  | None => obj ← gets _obj; writerow obj data
  end.

(** [__enter__] returns [self]; [__exit__] and [__del__] call [close]. *)
Definition __enter__ : M t unit := mret ().

Definition __exit__ : M t unit := close.

Definition __del__ : M t unit := close.

(** [__init__], after the keyword arguments of [csv.writer] are gathered:
<<
        self.handler = handler
        ...
        self._fobj, self._managed = nx_fsutils.open_src_file(src, mode, ...)
        try:
            self._obj = csv.writer(self._fobj, **kwargs)
        except:
            if self._managed:
                self._fobj.close()
            raise
        self._closed = False
>>
    Only a complete construction clears [_closed]. *)
Definition __init__ (src : source) (kwargs_ok : bool)
    (handler : option (row → option row)) : M t unit :=
  modify (set_handler handler) ;;
  '(fobj, managed) ← open_src_file src;
  modify (set_fobj (Some fobj)) ;;
  modify (set_managed managed) ;;
  try_except_raise
    (obj ← csv_writer fobj kwargs_ok; modify (set_obj (Some obj)))
    (managed ← gets _managed;
     if (managed : bool) then fobj ← gets _fobj; file_close fobj
     else mret ()) ;;
  modify (set_closed false).

(** One call made on an instance by its user, by a [with] block, or by the
    collector. *)
Inductive call :=
  | Close
  | Exit
  | Del
  | Write (data : row).

Definition is_close (c : call) : bool :=
  match c with
  | Write _ => false
  | _ => true
  end.

Definition do_call (c : call) : M t unit :=
  match c with
  | Close => close
  | Exit => __exit__
  | Del => __del__
  | Write data => write data
  end.

(** A history of calls on one instance; a call that raises leaves the
    instance as the exception found it and the next call goes on from
    there. *)
Definition do_calls (cs : list call) (s : t * list event) : t * list event :=
  foldl (λ s c, (do_call c s).2) s cs.

End Writer.

(** ** [class _MapWriter], [DictWriter], [ObjWriter] *)

(** An element of the [fields] argument: a name, or a column object with a
    [name] attribute.  [col_name] is [getattr(col, 'name', col)]. *)
Inductive col :=
  | Name (s : string)
  | Column (name : string).

Definition col_name (c : col) : string :=
  match c with
  | Name s => s
  | Column name => name
  end.

(** The spooled temporary file of a minimizing writer holds the records
    written so far, each as its key and value pairs. *)
Abbreviation spool := (list (list (string * string))).

Module _MapWriter.

(** The attributes of a [DictWriter] or [ObjWriter] instance ([ObjWriter]
    has no [extras_action]). *)
Record t := mk {
  handler : option (gmap string string → option (gmap string string));
  minimize : bool;
  include : option (list string);
  rest_val : option string;
  extras_action : option string;
  fields : list string;
  _field_set : gset string;
  _wrtr : option Writer.t;
  _fields_used : gset string;
  _fobj : option spool;
  _closed : bool
}.

(** A new instance, before any [__init__] has run.  No attribute is set;
    [_closed] is taken to start out true, as the class attribute of [Writer]
    does (the [__del__] of both classes calls [close] on instances whose
    construction failed). *)
Definition new : t := mk None false None None None [] ∅ None ∅ None true.

Definition set_handler v (self : t) : t :=
  mk v (minimize self) (include self) (rest_val self) (extras_action self)
    (fields self) (_field_set self) (_wrtr self) (_fields_used self)
    (_fobj self) (_closed self).
Definition set_minimize v (self : t) : t :=
  mk (handler self) v (include self) (rest_val self) (extras_action self)
    (fields self) (_field_set self) (_wrtr self) (_fields_used self)
    (_fobj self) (_closed self).
Definition set_include v (self : t) : t :=
  mk (handler self) (minimize self) v (rest_val self) (extras_action self)
    (fields self) (_field_set self) (_wrtr self) (_fields_used self)
    (_fobj self) (_closed self).
Definition set_rest_val v (self : t) : t :=
  mk (handler self) (minimize self) (include self) v (extras_action self)
    (fields self) (_field_set self) (_wrtr self) (_fields_used self)
    (_fobj self) (_closed self).
Definition set_extras_action v (self : t) : t :=
  mk (handler self) (minimize self) (include self) (rest_val self) v
    (fields self) (_field_set self) (_wrtr self) (_fields_used self)
    (_fobj self) (_closed self).
Definition set_fields v (self : t) : t :=
  mk (handler self) (minimize self) (include self) (rest_val self)
    (extras_action self) v (_field_set self) (_wrtr self) (_fields_used self)
    (_fobj self) (_closed self).
Definition set_field_set v (self : t) : t :=
  mk (handler self) (minimize self) (include self) (rest_val self)
    (extras_action self) (fields self) v (_wrtr self) (_fields_used self)
    (_fobj self) (_closed self).
Definition set_wrtr v (self : t) : t :=
  mk (handler self) (minimize self) (include self) (rest_val self)
    (extras_action self) (fields self) (_field_set self) v (_fields_used self)
    (_fobj self) (_closed self).
Definition set_fields_used v (self : t) : t :=
  mk (handler self) (minimize self) (include self) (rest_val self)
    (extras_action self) (fields self) (_field_set self) (_wrtr self) v
    (_fobj self) (_closed self).
Definition set_fobj v (self : t) : t :=
  mk (handler self) (minimize self) (include self) (rest_val self)
    (extras_action self) (fields self) (_field_set self) (_wrtr self)
    (_fields_used self) v (_closed self).
Definition set_closed v (self : t) : t :=
  mk (handler self) (minimize self) (include self) (rest_val self)
    (extras_action self) (fields self) (_field_set self) (_wrtr self)
    (_fields_used self) (_fobj self) v.

(** [Writer(...)]: a new [Writer] instance is made and its [__init__] run,
    on the same log.  When that raises there is no instance to keep. *)
Definition Writer_ (src : source) (kwargs_ok : bool)
    (handler : option (row → option row)) : M t Writer.t :=
  λ s, match Writer.__init__ src kwargs_ok handler (Writer.new, s.2) with
       | (Ok _, (wrtr, log)) => (Ok wrtr, (s.1, log))
       | (Raise e, (_, log)) => (Raise e, (s.1, log))
       end.

(** A method called on [self._wrtr]. *)
Definition on_wrtr {A} (m : M Writer.t A) : M t A :=
  λ s, match _wrtr s.1 with
       | Some wrtr =>
           match m (wrtr, s.2) with
           | (r, (wrtr', log)) => (r, (set_wrtr (Some wrtr') s.1, log))
           end
       | None => (Raise AttributeError, s)
       end.

(** Modelled from the spec: [nx_tempfile.SpooledTemporaryFile(...)], the
    spill store, whose source is not part of this repository: an empty
    spool, unless it cannot be made ([spool_ok] is false). *)
Definition SpooledTemporaryFile {Self} (spool_ok : bool) : M Self spool :=
  if spool_ok then emit EvSpool ;; mret [] else raise TempfileError.

(**
<<
    def __init__(self, src, fields, mode, encoding, errors, **kwargs):
        self.fields = [getattr(col, 'name', col) for col in fields]
        self._field_set = set(self.fields)
        self._wrtr = Writer(src, mode, encoding=encoding, errors=errors,
                            handler=None, **kwargs)
        try:
            if self.minimize:
                self._fields_used = set(self.include or {})
                extras = self._fields_used - self._field_set
                if extras:
                    raise ValueError('include specifies fields not specified',
                                     extras)
                self._fobj = nx_tempfile.SpooledTemporaryFile(...)
        except:
            self._wrtr.close()
            raise
>> *)
Definition __init__ (src : source) (fields : list col)
    (kwargs_ok spool_ok : bool) : M t unit :=
  modify (set_fields (col_name <$> fields)) ;;
  names ← gets _MapWriter.fields;
  modify (set_field_set (list_to_set names)) ;;
  wrtr ← Writer_ src kwargs_ok None;
  modify (set_wrtr (Some wrtr)) ;;
  try_except_raise
    (minimize ← gets minimize;
     if (minimize : bool) then
       include ← gets include;
       modify (set_fields_used (list_to_set (default [] include))) ;;
       used ← gets _fields_used;
       field_set ← gets _field_set;
       let extras : gset string := used ∖ field_set in
       if bool_decide (extras ≠ ∅) then
         raise (ValueError_include "include specifies fields not specified"
                  extras)
       else
         fobj ← SpooledTemporaryFile spool_ok;
         modify (set_fobj (Some fobj))
     else mret ())
    (on_wrtr Writer.close).

End _MapWriter.

(** Both classes list the mixins of [wrtr_utils] before [_MapWriter]; the
    call [super().__init__(src, fields, mode, encoding, errors, ...)] has
    the signature of [_MapWriter.__init__], which is taken to be the one
    that runs. *)
Module DictWriter.

Definition __init__ (src : source) (fields : list col)
    (kwargs_ok spool_ok : bool)
    (handler : option (gmap string string → option (gmap string string)))
    (minimize : bool) (include : option (list string))
    (rest_val : option string) (extras_action : string)
    : M _MapWriter.t unit :=
  modify (_MapWriter.set_handler handler) ;;
  modify (_MapWriter.set_minimize minimize) ;;
  modify (_MapWriter.set_include include) ;;
  modify (_MapWriter.set_rest_val rest_val) ;;
  modify (_MapWriter.set_extras_action (Some extras_action)) ;;
  _MapWriter.__init__ src fields kwargs_ok spool_ok ;;
  modify (_MapWriter.set_closed false).

End DictWriter.

Module ObjWriter.

Definition __init__ (src : source) (fields : list col)
    (kwargs_ok spool_ok : bool)
    (handler : option (gmap string string → option (gmap string string)))
    (minimize : bool) (include : option (list string))
    (rest_val : option string) : M _MapWriter.t unit :=
  modify (_MapWriter.set_handler handler) ;;
  modify (_MapWriter.set_minimize minimize) ;;
  modify (_MapWriter.set_include include) ;;
  modify (_MapWriter.set_rest_val rest_val) ;;
  _MapWriter.__init__ src fields kwargs_ok spool_ok ;;
  modify (_MapWriter.set_closed false).

End ObjWriter.

(** ** Reading a log *)

(** How many times a stream was closed in a log. *)
Definition closes (fobj : handle) (log : list event) : nat :=
  length (filter (λ ev, ev = EvClose fobj) log).

(** The streams a log leaves open: opened in it and not closed after. *)
Fixpoint left_open (log : list event) : list handle :=
  match log with
  | [] => []
  | EvOpen fobj :: log' =>
      if bool_decide (EvClose fobj ∈ log') then left_open log'
      else fobj :: left_open log'
  | _ :: log' => left_open log'
  end.

(** The rows a log sent to the sink of a stream, in order. *)
Definition rows_written (fobj : handle) (log : list event) : list row :=
  omap (λ ev, match ev with
              | EvRow h data => if bool_decide (h = fobj) then Some data else None
              | _ => None
              end) log.

(** ** The writer mixins of [wrtr_utils] *)

Module wrtr_utils.

(** The source of [wrtr_utils] is not part of this repository.  Its header
    mixin is modelled from the DeferredHeaderWriter of the specification
    (sections 3 and 4.5) on the attributes that [_MapWriter.__init__] sets:
    [fields] are the target names, [_fields_used] the used names, [_fobj]
    the spill store, and the writer is finalized once the spill store has
    been released. *)

(** Modelled from the spec: the value written for a field a record does not
    have, [rest_val] or the empty string. *)
Definition fill (self : _MapWriter.t) : string :=
  default "" (_MapWriter.rest_val self).

(** Modelled from the spec: value extraction.  The values of a record at
    the names of [order], in that order, a missing one replaced by [fill];
    keys outside [order] are ignored. *)
Definition extract (order : list string) (fill : string)
    (m : gmap string string) : row :=
  (λ f, default fill (m !! f)) <$> order.

(** Modelled from the spec: the key and value pairs of a record at the
    declared fields it has, as they go to the spill store. *)
Definition pairs (fields : list string) (m : gmap string string)
    : list (string * string) :=
  omap (λ f, (λ v, (f, v)) <$> m !! f) fields.

(** Modelled from the spec: the minimal field order, the declared fields
    that are used, in declared order. *)
Definition final_order (self : _MapWriter.t) : list string :=
  filter (λ f, f ∈ _MapWriter._fields_used self) (_MapWriter.fields self).

(** Modelled from the spec: the order rows are written in once nothing is
    pending, the minimal one for a minimizing writer, the declared one
    otherwise. *)
Definition order (self : _MapWriter.t) : list string :=
  if _MapWriter.minimize self then final_order self
  else _MapWriter.fields self.

(** A [for] loop over a list. *)
Fixpoint for_each {Self A} (f : A → M Self unit) (l : list A) : M Self unit :=
  match l with
  | [] => mret ()
  | x :: l' => f x ;; for_each f l'
  end.

(** Modelled from the spec: [write] of the DeferredHeaderWriter (the header
    mixin of [wrtr_utils], not part of this repository).  While the spool is
    there the writer is not finalized: the pairs of the record at the
    declared fields are appended to the spool and their keys counted as
    used.  Once the spool is released the values are extracted in the final
    order and written through the [Writer]. *)
Definition write (m : gmap string string) : M _MapWriter.t unit :=
  spill ← gets _MapWriter._fobj;
  match spill with
  | Some records =>
      names ← gets _MapWriter.fields;
      used ← gets _MapWriter._fields_used;
      modify (_MapWriter.set_fields_used
                (used ∪ list_to_set (pairs names m).*1)) ;;
      modify (_MapWriter.set_fobj (Some (records ++ [pairs names m])))
  | None =>
      names ← gets order;
      v ← gets fill;
      _MapWriter.on_wrtr (Writer.write (extract names v m))
  end.

(** Modelled from the spec: [finalize].  The minimal order is computed, the
    header row written, every spooled record replayed through value
    extraction at that order, and the spool released, which marks the
    writer finalized. *)
Definition finalize : M _MapWriter.t unit :=
  spill ← gets _MapWriter._fobj;
  match spill with
  | Some records =>
      names ← gets final_order;
      v ← gets fill;
      _MapWriter.on_wrtr (Writer.write names) ;;
      for_each (λ kv, _MapWriter.on_wrtr
                        (Writer.write (extract names v (list_to_map kv))))
        records ;;
      modify (_MapWriter.set_fobj None)
  | None => mret ()
  end.

(** Modelled from the spec: [close] finalizes when that is still to do,
    then closes the [Writer]; a second [close] does nothing. *)
Definition close : M _MapWriter.t unit :=
  closed ← gets _MapWriter._closed;
  if negb closed then
    finalize ;;
    _MapWriter.on_wrtr Writer.close ;;
    modify (_MapWriter.set_closed true)
  else mret ().

End wrtr_utils.

(** ** Writing through a minimizing writer and reading back *)

(** [DictWriter(path, fields, minimize=True, rest_val=...)], one [write] per
    mapping, then [close]. *)
Definition write_keyed (src : source) (fields : list string)
    (rest_val : option string) (maps : list (gmap string string))
    : M _MapWriter.t unit :=
  DictWriter.__init__ src (Name <$> fields) true true None true None rest_val
    "raise" ;;
  wrtr_utils.for_each wrtr_utils.write maps ;;
  wrtr_utils.close.

(** The rows that reach the stream. *)
Definition written (fobj : handle) (fields : list string)
    (rest_val : option string) (maps : list (gmap string string))
    : list row :=
  rows_written fobj
    (write_keyed (Path fobj) fields rest_val maps (_MapWriter.new, [])).2.2.

(** The mappings [dict_reader] yields with its default options. *)
Definition read_back (rdr : csv_reader) : list (gmap string string) :=
  rdr_utils.items
  <$> rdr_utils.yielded (dict_reader rdr None None rdr_utils.defaults).

(** The keys present in some mapping, and the minimal header for them. *)
Definition used_keys (maps : list (gmap string string)) : gset string :=
  ⋃ (dom <$> maps).

Definition minimal_header (fields : list string)
    (maps : list (gmap string string)) : list string :=
  filter (λ f, f ∈ used_keys maps) fields.

(** A mapping as it comes back: the header names bound to the values
    extracted for them. *)
Definition replayed (header : list string) (fill : string)
    (m : gmap string string) : gmap string string :=
  rdr_utils.bind_all ∅ (zip header (wrtr_utils.extract header fill m)).

(** A text the default whitespace policy of the readers leaves alone. *)
Definition trimmed (s : string) : Prop := rdr_utils.ws_policy false false s = s.

(** The two conditions of a [Writer] instance: constructed over a stream and
    not yet closed, or closed. *)
Definition Writer_open_on (fobj : handle) (managed : bool) (self : Writer.t)
    : Prop :=
  Writer._closed self = false ∧ Writer._fobj self = Some fobj
  ∧ Writer._obj self = Some fobj ∧ Writer._managed self = managed.

Definition Writer_shut (self : Writer.t) : Prop :=
  Writer._closed self = true ∧ Writer._obj self = None.

(** The events of a construction that fails once [open_src_file] has
    returned: a stream opened for the writer is closed again. *)
Definition open_then_closed (src : source) : list event :=
  match src with
  | Path fobj => [EvOpen fobj; EvClose fobj]
  | _ => []
  end.

(** The error a construction ends with when the stream cannot be opened or
    the sink cannot be made, and [otherwise] when both succeed. *)
Definition writer_outcome (src : source) (kwargs_ok : bool)
    (otherwise : result unit) : result unit :=
  match src with
  | BadPath => Raise OSError
  | _ => if kwargs_ok then otherwise else Raise CsvError
  end.

Global Instance trimmed_dec s : Decision (trimmed s).
Proof. unfold trimmed. apply _. Defined.

(** The mappings of the round-trip examples: one that leaves a declared
    field out, and one whose values are the header itself. *)
Definition sparse_maps : list (gmap string string) :=
  [{["a" := "1"; "c" := "3"]}; {["c" := "x"]}].

Definition header_like_maps : list (gmap string string) :=
  [{["a" := "1"; "b" := "2"]}; {["a" := "a"; "b" := "b"]};
   {["a" := "3"; "b" := "4"]}].

(** A minimizing [DictWriter] over a path opened as [fobj], between its
    construction and its [close]: the fields used and the records spooled so
    far; and the same writer once closed. *)
Definition spooling (fobj : handle) (fields : list string)
    (rest_val : option string) (used : gset string) (records : spool)
    : _MapWriter.t :=
  _MapWriter.mk None true None rest_val (Some "raise") fields
    (list_to_set fields)
    (Some (Writer.mk None (Some fobj) true (Some fobj) false))
    used (Some records) false.

Definition finalized (fields : list string) (rest_val : option string)
    (used : gset string) : _MapWriter.t :=
  _MapWriter.mk None true None rest_val (Some "raise") fields
    (list_to_set fields) (Some (Writer.mk None None true None true))
    used None true.

(** The fields counted as used after a sequence of writes. *)
Definition used_after (fields : list string) (used : gset string)
    (maps : list (gmap string string)) : gset string :=
  foldl (λ u m, u ∪ list_to_set (wrtr_utils.pairs fields m).*1) used maps.

(** ** Histories of a [Writer] *)

(** A [Writer] as a complete construction leaves it, and as [close] leaves
    that one. *)
Definition Writer_opened (handler : option (row → option row))
    (fobj : handle) (managed : bool) : Writer.t :=
  Writer.mk handler (Some fobj) managed (Some fobj) false.

Definition Writer_closed (handler : option (row → option row))
    (managed : bool) : Writer.t :=
  Writer.mk handler None managed None true.

(** What [write] passes on for a record: the result of the handler, or the
    record itself without one. *)
Definition forward (handler : option (row → option row)) (data : row)
    : option row :=
  match handler with
  | Some h => h data
  | None => Some data
  end.

(** The records of the [write] calls of a history that come before its first
    [close], [__exit__] or [__del__]. *)
Fixpoint writes_before_close (cs : list Writer.call) : list row :=
  match cs with
  | Writer.Write data :: cs' => data :: writes_before_close cs'
  | _ => []
  end.

(** The stream of a source, whether [Writer] manages it, and the events of
    its opening and of its closing by [Writer]. *)
Definition source_of (managed : bool) (fobj : handle) : source :=
  if managed then Path fobj else Stream fobj.

Definition opening (managed : bool) (fobj : handle) : list event :=
  if managed then [EvOpen fobj] else [].

Definition closing (managed : bool) (fobj : handle) : list event :=
  if managed then [EvClose fobj] else [].

(** ** Handlers that filter *)

(** The handler [lambda x: x if keep(x) else None] of the doctests. *)
Definition keep_if {A} (keep : A → bool) (x : A) : option A :=
  if keep x then Some x else None.

(** ** The readers as generator objects *)

(** The readers are generators: nothing of their body runs before the first
    [next], and a consumer may stop pulling and [close] them (the collector
    closes an abandoned generator).  What reaches the source is the entering
    and the leaving of the context manager [nx_fsutils.open_src(src, ...)]. *)
Inductive src_event :=
  | Entered
  | Exited.

(** What a [next] gives back. *)
Inductive pulled (A : Type) :=
  | Yielded (a : A)
  | StopIteration
  | Raising (e : exn).
Arguments Yielded {A} a.
Arguments StopIteration {A}.
Arguments Raising {A} e.

(** A [reader_gen] generator object: not started; suspended at the
    [yield from rdr] inside the [with] block, with the lines still to be
    yielded; or finished. *)
Inductive gen :=
  | Fresh
  | Suspended (rest : list Line)
  | Finished.

(** [next] on a [reader_gen] generator.  The first [next] runs the body up
    to the first [yield]: the [with] block is entered (or [open_src] fails,
    when [opens] is false) and the lines of [reader_gen] are yielded one per
    [next]; after the last one the [with] block is left and the generator
    is finished. *)
Definition reader_gen_next (opens : bool) (rdr : csv_reader)
    (handler : option (Line → option Line)) (g : gen) (log : list src_event)
    : pulled Line * (gen * list src_event) :=
  match g with
  | Fresh =>
      if opens then
        match reader_gen rdr handler with
        | l :: rest => (Yielded l, (Suspended rest, log ++ [Entered]))
        | [] => (StopIteration, (Finished, (log ++ [Entered]) ++ [Exited]))
        end
      else (Raising OSError, (Finished, log))
  | Suspended (l :: rest) => (Yielded l, (Suspended rest, log))
  | Suspended [] => (StopIteration, (Finished, log ++ [Exited]))
  | Finished => (StopIteration, (Finished, log))
  end.

(** [close] on a [reader_gen] generator: a suspended one is resumed with
    [GeneratorExit], which leaves the [with] block; one that was never
    started, or is finished, runs nothing. *)
Definition reader_gen_close (g : gen) (log : list src_event)
    : gen * list src_event :=
  match g with
  | Suspended _ => (Finished, log ++ [Exited])
  | _ => (Finished, log)
  end.

(** [k] calls of [next] in a row, whatever they give back. *)
Fixpoint reader_gen_pulls (k : nat) (opens : bool) (rdr : csv_reader)
    (handler : option (Line → option Line)) (s : gen * list src_event)
    : gen * list src_event :=
  match k with
  | 0 => s
  | S k' =>
      reader_gen_pulls k' opens rdr handler
        (reader_gen_next opens rdr handler s.1 s.2).2
  end.

(** [reader], [dict_reader] and [obj_reader] have one shape:
<<
    rdr = reader_gen(src, ...)
    try:
        yield from rdr_utils.list_reader(rdr, ...)
    finally:
        rdr.close()
>>
    The reader of [rdr_utils] is not part of this repository.  It is
    described here by what it does at each [next] made on it: it pulls some
    number of lines from [rdr] and then yields a record, stops or raises. *)
Inductive outcome :=
  | Gives
  | Stops
  | Fails (e : exn).

Abbreviation plan := (list (nat * outcome)).

(** A generator object of one of the three readers: not started; suspended
    at its [yield from], holding its [reader_gen] generator and what the
    reader of [rdr_utils] will still do; or finished. *)
Inductive mapped_gen :=
  | NotStarted
  | Running (rdr_gen : gen) (todo : plan)
  | Done.

(** One resumption of the body: the reader of [rdr_utils] pulls and yields,
    or it ends (by stopping, by raising, or because it has nothing left to
    do), and then the [finally] clause closes [rdr]. *)
Definition mapped_resume (opens : bool) (rdr : csv_reader)
    (handler : option (Line → option Line)) (g : gen) (todo : plan)
    (log : list src_event) : mapped_gen * list src_event :=
  match todo with
  | (k, Gives) :: todo' =>
      let s := reader_gen_pulls k opens rdr handler (g, log) in
      (Running s.1 todo', s.2)
  | (k, _) :: _ =>
      let s := reader_gen_pulls k opens rdr handler (g, log) in
      (Done, (reader_gen_close s.1 s.2).2)
  | [] => (Done, (reader_gen_close g log).2)
  end.

(** [next] on a reader: the first one creates the [reader_gen] generator
    and enters the [try]. *)
Definition mapped_next (opens : bool) (rdr : csv_reader)
    (handler : option (Line → option Line)) (todo : plan)
    (s : mapped_gen * list src_event) : mapped_gen * list src_event :=
  match s.1 with
  | NotStarted => mapped_resume opens rdr handler Fresh todo s.2
  | Running g todo' => mapped_resume opens rdr handler g todo' s.2
  | Done => (Done, s.2)
  end.

(** [close] on a reader: a suspended one is resumed with [GeneratorExit]
    and its [finally] clause closes [rdr]; one that was never started has
    made no [reader_gen] generator. *)
Definition mapped_close (s : mapped_gen * list src_event)
    : mapped_gen * list src_event :=
  match s.1 with
  | Running g _ => (Done, (reader_gen_close g s.2).2)
  | _ => (Done, s.2)
  end.

(** What a consumer does with a generator. *)
Inductive op :=
  | Next
  | CloseGen.

Definition mapped_ops (opens : bool) (rdr : csv_reader)
    (handler : option (Line → option Line)) (todo : plan) (ops : list op)
    : mapped_gen * list src_event :=
  foldl (λ s o, match o with
                | Next => mapped_next opens rdr handler todo s
                | CloseGen => mapped_close s
                end) (NotStarted, []) ops.

(** Pulling a [reader_gen] generator until it stops: the lines pulled and
    the state it is left in.  [fuel] bounds the number of calls. *)
Fixpoint reader_gen_drain (fuel : nat) (opens : bool) (rdr : csv_reader)
    (handler : option (Line → option Line)) (s : gen * list src_event)
    : list Line * (gen * list src_event) :=
  match fuel with
  | 0 => ([], s)
  | S fuel' =>
      match reader_gen_next opens rdr handler s.1 s.2 with
      | (Yielded l, s') =>
          let r := reader_gen_drain fuel' opens rdr handler s' in
          (l :: r.1, r.2)
      | (_, s') => ([], s')
      end
  end.

(** What the log of a generator can be in each of its states. *)
Definition gen_inv (s : gen * list src_event) : Prop :=
  match s.1 with
  | Fresh => s.2 = []
  | Suspended _ => s.2 = [Entered]
  | Finished => s.2 = [] ∨ s.2 = [Entered; Exited]
  end.

Definition mapped_inv (s : mapped_gen * list src_event) : Prop :=
  match s.1 with
  | NotStarted => s.2 = []
  | Running g _ => gen_inv (g, s.2)
  | Done => s.2 = [] ∨ s.2 = [Entered; Exited]
  end.

Global Instance op_eq_dec : EqDecision op.
Proof. solve_decision. Defined.

(** ** The keyword arguments handed to [csv] *)

Module csv_kwargs.

(** The values of the dialect arguments: texts, flags, and the quoting
    constants of [csv], which are small integers. *)
Inductive pyval :=
  | PyStr (s : string)
  | PyBool (b : bool)
  | PyInt (n : nat).

(** The dialect arguments of [reader_gen] and of [Writer.__init__]; [None]
    is the default of each but [dialect] and [strict]. *)
Record args := mk {
  dialect : string;
  delimiter : option string;
  quotechar : option string;
  doublequote : option bool;
  quoting : option nat;
  lineterminator : option string;
  strict : bool
}.

(** [if v is not None: kwargs[key] = v]. *)
Definition set_arg {A} (key : string) (inj : A → pyval) (v : option A)
    (kwargs : gmap string pyval) : gmap string pyval :=
  match v with
  | Some x => <[key := inj x]> kwargs
  | None => kwargs
  end.

(** [reader_gen]:
<<
    kwargs = {'dialect': dialect, 'strict': strict}
    if delimiter is not None:
        kwargs['delimiter'] = delimiter
    if quotechar is not None:
        kwargs['quotechar'] = quotechar
    if doublequote is not None:
        kwargs['doublequote'] = doublequote
    if quoting is not None:
        kwargs['quoting'] = quoting
>> *)
Definition reader_gen_kwargs (a : args) : gmap string pyval :=
  let kwargs : gmap string pyval :=
    <["strict" := PyBool (strict a)]> {["dialect" := PyStr (dialect a)]} in
  let kwargs := set_arg "delimiter" PyStr (delimiter a) kwargs in
  let kwargs := set_arg "quotechar" PyStr (quotechar a) kwargs in
  let kwargs := set_arg "doublequote" PyBool (doublequote a) kwargs in
  set_arg "quoting" PyInt (quoting a) kwargs.

(** [Writer.__init__]: the same five lines, then
<<
    if lineterminator is not None:
        kwargs['lineterminator'] = lineterminator
>> *)
Definition Writer_kwargs (a : args) : gmap string pyval :=
  let kwargs : gmap string pyval :=
    <["strict" := PyBool (strict a)]> {["dialect" := PyStr (dialect a)]} in
  let kwargs := set_arg "delimiter" PyStr (delimiter a) kwargs in
  let kwargs := set_arg "quotechar" PyStr (quotechar a) kwargs in
  let kwargs := set_arg "doublequote" PyBool (doublequote a) kwargs in
  let kwargs := set_arg "quoting" PyInt (quoting a) kwargs in
  set_arg "lineterminator" PyStr (lineterminator a) kwargs.

End csv_kwargs.

(** ** Example runs *)

(** The doctest input of [reader_gen], and a run over a source whose first
    record holds a quoted field with a line break: it ends on source line 2. *)
Definition LF : string := String (ascii_of_nat 10) EmptyString.

Definition doctest_run : csv_reader :=
  [(["a"; "b"], 1); (["1"; "2"], 2); ([], 3); (["3"; "4"], 4)].

Definition multi_line_run : csv_reader :=
  [(["a"; "b" +:+ LF +:+ "c"], 2); (["1"; "2"], 3)].

(** The doctest inputs of [dict_reader]: a header row, a data row, the
    header again, a data row; and the same without the leading header. *)
Definition header_run : csv_reader :=
  [(["a"; "b"], 1); (["1"; "2"], 2); (["a"; "b"], 3); (["3"; "4"], 4)].

Definition headerless_run : csv_reader :=
  [(["1"; "2"], 1); (["a"; "b"], 2); (["3"; "4"], 3)].

(** The doctest inputs of [reader], and of [dict_reader] with a short and
    with a long last row. *)
Definition spaced_run : csv_reader :=
  [(["a"; "b"], 1); (["1"; " 2 "], 2); ([], 3); (["3"; "4"], 4)].

Definition short_row_run : csv_reader :=
  [(["a"; "b"], 1); (["1"; "2"], 2); (["a"; "b"], 3); (["3"], 4)].

Definition long_row_run : csv_reader :=
  [(["a"; "b"], 1); (["1"; "2"], 2); (["a"; "b"], 3); (["3"; "4"; "5"], 4)].

(** The handlers of the doctests: keep line 2 only; drop line 2. *)
Definition only_line_2 (l : Line) : option Line :=
  if bool_decide (line_num l = 2) then Some l else None.

Definition not_line_2 (m : rdr_utils.Mapped) : option rdr_utils.Mapped :=
  if bool_decide (rdr_utils.m_line_num m ≠ 2) then Some m else None.

(** * Properties *)

(** ** The doctests *)

Lemma reader_gen_doctests :
  reader_gen doctest_run None
  = [mkLine ["a"; "b"] 1; mkLine ["1"; "2"] 2; mkLine [] 3;
     mkLine ["3"; "4"] 4]
  ∧ reader_gen doctest_run (Some only_line_2) = [mkLine ["1"; "2"] 2].
Proof. split; reflexivity. Qed.

Lemma reader_doctests :
  reader spaced_run None false false true
  = [mkLine ["a"; "b"] 1; mkLine ["1"; "2"] 2; mkLine ["3"; "4"] 4]
  ∧ reader spaced_run None false false false
    = [mkLine ["a"; "b"] 1; mkLine ["1"; "2"] 2; mkLine [] 3;
       mkLine ["3"; "4"] 4]
  ∧ reader spaced_run (Some only_line_2) false false true
    = [mkLine ["1"; "2"] 2]
  ∧ reader spaced_run None true false true
    = [mkLine ["a"; "b"] 1; mkLine ["1"; " 2"] 2; mkLine ["3"; "4"] 4]
  ∧ reader spaced_run None false true true
    = [mkLine ["a"; "b"] 1; mkLine ["1"; "2 "] 2; mkLine ["3"; "4"] 4].
Proof. repeat split; vm_compute; reflexivity. Qed.

Lemma dict_reader_doctests :
  rdr_utils.items
  <$> rdr_utils.yielded
        (dict_reader headerless_run (Some ["x"; "y"]) None rdr_utils.defaults)
  = [{["x" := "1"; "y" := "2"]}; {["x" := "a"; "y" := "b"]};
     {["x" := "3"; "y" := "4"]}]
  ∧ rdr_utils.items
    <$> rdr_utils.yielded
          (dict_reader header_run None None
             (rdr_utils.set_handler not_line_2 rdr_utils.defaults))
    = [{["a" := "3"; "b" := "4"]}]
  ∧ rdr_utils.raised (dict_reader short_row_run None None rdr_utils.defaults)
    = Some (ValueError_arity "insufficient fields" 4 2 1)
  ∧ rdr_utils.items
    <$> rdr_utils.yielded
          (dict_reader short_row_run None None
             (rdr_utils.set_rest_val "7" rdr_utils.defaults))
    = [{["a" := "1"; "b" := "2"]}; {["a" := "3"; "b" := "7"]}]
  ∧ rdr_utils.raised (dict_reader long_row_run None None rdr_utils.defaults)
    = Some (ValueError_arity "too many fields" 4 2 3)
  ∧ rdr_utils.items
    <$> rdr_utils.yielded
          (dict_reader long_row_run None None
             (rdr_utils.set_rest_key "a" rdr_utils.defaults))
    = [{["a" := "1"; "b" := "2"]}; {["a" := "3"; "b" := "4"; "a0" := "5"]}]
  ∧ rdr_utils.items
    <$> rdr_utils.yielded
          (dict_reader header_run None None
             (rdr_utils.set_field_rename {["b" := "c"]} rdr_utils.defaults))
    = [{["a" := "1"; "c" := "2"]}; {["a" := "3"; "c" := "4"]}].
Proof. repeat split; vm_compute; reflexivity. Qed.


Section reader_gen_facts.

Implicit Types (rdr : csv_reader) (l : Line).

Lemma reader_gen_inner_length last_end rdr :
  length (reader_gen_inner last_end rdr) = length rdr.
Proof.
  revert last_end. induction rdr as [|[rec n] rdr IH]; intros last_end; simpl.
  - reflexivity.
  - by rewrite IH.
Qed.

Lemma reader_gen_inner_data last_end rdr :
  data <$> reader_gen_inner last_end rdr = rdr.*1.
Proof.
  revert last_end. induction rdr as [|[rec n] rdr IH]; intros last_end; simpl.
  - reflexivity.
  - by rewrite IH.
Qed.

Lemma reader_gen_inner_lookup last_end rdr i l :
  reader_gen_inner last_end rdr !! i = Some l →
  line_num l = match i with
               | 0 => last_end
               | S j => default 0 (rdr.*2 !! j)
               end + 1.
Proof.
  revert last_end i. induction rdr as [|[rec n] rdr IH]; intros last_end i; simpl.
  - by rewrite lookup_nil.
  - destruct i as [|i]; simpl.
    + by intros [= <-].
    + intros Hl. rewrite (IH _ _ Hl). by destruct i.
Qed.

Lemma reader_gen_inner_single_lines last_end rdr i l :
  rdr.*2 = seq (S last_end) (length rdr) →
  reader_gen_inner last_end rdr !! i = Some l →
  line_num l = last_end + S i.
Proof.
  revert last_end i. induction rdr as [|[rec n] rdr IH]; intros last_end i; simpl.
  - by rewrite lookup_nil.
  - intros [= -> Hrest]. destruct i as [|i]; simpl.
    + intros [= <-]. simpl. lia.
    + intros Hl. rewrite (IH _ _ Hrest Hl). lia.
Qed.

End reader_gen_facts.

Section reader_facts.

Implicit Types (rdr : csv_reader) (l : Line).

Lemma list_reader_blanks (rdr : list Line) leading_ws trailing_ws :
  rdr_utils.list_reader rdr leading_ws trailing_ws true
  = filter (λ l, data l ≠ [])
      (rdr_utils.list_reader rdr leading_ws trailing_ws false).
Proof.
  unfold rdr_utils.list_reader. induction rdr as [|l rdr IH].
  - reflexivity.
  - cbn [omap list_omap]. rewrite IH. clear IH.
    destruct (data l) as [|f fs] eqn:Hd; cbn [andb bool_decide decide_rel].
    + reflexivity.
    + reflexivity.
Qed.

Lemma list_reader_line_nums (rdr : list Line) leading_ws trailing_ws :
  line_num <$> rdr_utils.list_reader rdr leading_ws trailing_ws false
  = line_num <$> rdr.
Proof.
  unfold rdr_utils.list_reader. induction rdr as [|l rdr IH].
  - reflexivity.
  - rewrite fmap_cons, <- IH. reflexivity.
Qed.

(** C4 (amended).  A record yielded by [reader_gen] carries one more than the
    value the tokenizer's line counter had after the previous record (zero
    before the first): the source line on which the record starts.  This is
    the 1-based index of the record when every record of the run occupies a
    single source line.  In [reader], skipping the blank records leaves the
    other records and their line numbers as they are without skipping, and
    without skipping the line numbers are those of [reader_gen]. *)
Theorem reader_gen_line_num rdr leading_ws trailing_ws :
  (∀ i l, reader_gen rdr None !! i = Some l →
     line_num l = last_end_at rdr i + 1)
  ∧ (rdr.*2 = seq 1 (length rdr) →
     ∀ i l, reader_gen rdr None !! i = Some l → line_num l = S i)
  ∧ reader rdr None leading_ws trailing_ws true
    = filter (λ l, data l ≠ []) (reader rdr None leading_ws trailing_ws false)
  ∧ line_num <$> reader rdr None leading_ws trailing_ws false
    = line_num <$> reader_gen rdr None.
Proof.
  unfold reader, reader_gen. split; [|split; [|split]].
  - intros i l Hl. apply reader_gen_inner_lookup in Hl. by destruct i.
  - intros Hone i l Hl.
    by apply (reader_gen_inner_single_lines 0 rdr i l Hone) in Hl.
  - apply list_reader_blanks.
  - apply list_reader_line_nums.
Qed.

Lemma reader_gen_line_num_witness :
  ∃ l, reader_gen doctest_run None !! 3 = Some l ∧ line_num l = 4.
Proof.
  exists (mkLine ["3"; "4"] 4). split; [reflexivity|].
  exact (proj1 (proj2 (reader_gen_line_num doctest_run false false))
           eq_refl 3 (mkLine ["3"; "4"] 4) eq_refl).
Defined.

(** C4, as stated, fails: the second record of [multi_line_run] starts on
    source line 3, so its line number is 3, not its index 2. *)
Lemma reader_gen_line_num_not_index :
  csv_reader_ok 0 multi_line_run = true
  ∧ ∃ l, reader_gen multi_line_run None !! 1 = Some l ∧ line_num l ≠ 1 + 1.
Proof.
  split; [reflexivity|].
  exists (mkLine ["1"; "2"] 3). split; [reflexivity|]. simpl. lia.
Qed.

End reader_facts.

(** ** Successive bindings *)

Section bind_all_facts.

Import rdr_utils.

Implicit Types (init : gmap string string) (bs : list (string * string)).

Lemma bind_all_app init bs1 bs2 :
  bind_all init (bs1 ++ bs2) = bind_all (bind_all init bs1) bs2.
Proof. apply foldl_app. Qed.

Lemma bind_all_dom init bs :
  dom (bind_all init bs) = dom init ∪ list_to_set bs.*1.
Proof.
  revert init. induction bs as [|[k v] bs IH]; intros init; simpl.
  - by rewrite (right_id_L ∅ (∪)).
  - rewrite IH, dom_insert_L, (comm_L (∪) {[k]}), <- (assoc_L (∪)).
    reflexivity.
Qed.

Lemma bind_all_lookup_notin init bs k :
  k ∉ bs.*1 → bind_all init bs !! k = init !! k.
Proof.
  revert init. induction bs as [|[k' v'] bs IH]; intros init Hk; simpl.
  - reflexivity.
  - rewrite fmap_cons, not_elem_of_cons in Hk. destruct Hk as [Hne Hk].
    rewrite (IH _ Hk). by rewrite lookup_insert_ne.
Qed.

Lemma bind_all_lookup_NoDup init bs k v :
  NoDup bs.*1 → (k, v) ∈ bs → bind_all init bs !! k = Some v.
Proof.
  revert init. induction bs as [|[k' v'] bs IH]; intros init Hnd Hin.
  - by apply elem_of_nil in Hin.
  - rewrite fmap_cons, NoDup_cons in Hnd. destruct Hnd as [Hfresh Hnd].
    apply elem_of_cons in Hin as [[= -> ->]|Hin]; simpl.
    + rewrite (bind_all_lookup_notin _ _ _ Hfresh). apply lookup_insert_eq.
    + by apply IH.
Qed.

Lemma zip_rename_l (f : string → string) (ks vs : list string) :
  prod_map f id <$> zip ks vs = zip (f <$> ks) vs.
Proof.
  revert vs. induction ks as [|k ks IH]; intros [|v vs]; simpl; try done.
  by rewrite IH.
Qed.

Lemma output_bindings_zip rn ks vs rest :
  output_bindings rn (zip ks vs, rest) = zip (rename rn <$> ks) vs ++ rest.
Proof. unfold output_bindings. cbn [fst snd]. by rewrite zip_rename_l. Qed.

Lemma rest_bindings_lookup k extra j :
  rest_bindings k extra !! j = (λ v, (k +:+ pretty j, v)) <$> extra !! j.
Proof.
  unfold rest_bindings.
  apply (list_lookup_imap (λ i v, (k +:+ pretty i, v))).
Qed.

Lemma rest_bindings_NoDup k extra : NoDup (rest_bindings k extra).*1.
Proof.
  apply NoDup_alt. intros i j key Hi Hj.
  rewrite list_lookup_fmap, rest_bindings_lookup in Hi, Hj.
  destruct (extra !! i) as [vi|]; [|done].
  destruct (extra !! j) as [vj|]; [|done].
  simpl in Hi, Hj. injection Hi as Hi. injection Hj as Hj. subst key.
  apply (inj (String.app k)) in Hj. by apply (inj pretty) in Hj.
Qed.

Lemma rest_bindings_values k extra : (rest_bindings k extra).*2 = extra.
Proof.
  apply list_eq. intros j.
  rewrite list_lookup_fmap, rest_bindings_lookup.
  destruct (extra !! j); reflexivity.
Qed.

End bind_all_facts.

(** ** Reconciliation of one record *)

Section map_line_facts.

Import rdr_utils.

Implicit Types (init : gmap string string) (names : list string).
Implicit Types (o : options) (l : Line) (m : Mapped).

Lemma map_line_short init names o l :
  length (data l) < length names →
  map_line init names o l
  = match rest_val o with
    | Some v =>
        Ok (Some (mkMapped
          (bind_all init
             (zip (rename (field_rename o) <$> names)
                (data l ++ replicate (length names - length (data l)) v)))
          (line_num l)))
    | None =>
        Raise (ValueError_arity "insufficient fields" (line_num l)
                 (length names) (length (data l)))
    end.
Proof.
  intros Hlt. unfold map_line, reconcile.
  rewrite bool_decide_eq_false_2 by lia.
  rewrite bool_decide_eq_true_2 by lia.
  destruct (rest_val o) as [v|]; [|reflexivity].
  rewrite bool_decide_eq_false_2, andb_false_r.
  - by rewrite output_bindings_zip, app_nil_r.
  - intros Heq. rewrite Heq in Hlt. lia.
Qed.

Lemma map_line_long init names o l :
  length names < length (data l) →
  map_line init names o l
  = match rest_key o with
    | Some k =>
        Ok (Some (mkMapped
          (bind_all init
             (zip (rename (field_rename o) <$> names)
                (take (length names) (data l))
              ++ rest_bindings k (drop (length names) (data l))))
          (line_num l)))
    | None =>
        Raise (ValueError_arity "too many fields" (line_num l)
                 (length names) (length (data l)))
    end.
Proof.
  intros Hlt. unfold map_line, reconcile.
  rewrite !bool_decide_eq_false_2 by lia.
  destruct (rest_key o) as [k|]; [|reflexivity].
  rewrite bool_decide_eq_false_2, andb_false_r.
  - by rewrite output_bindings_zip.
  - intros Heq. rewrite Heq in Hlt. lia.
Qed.

Lemma map_line_exact init names o l :
  length (data l) = length names →
  map_line init names o l
  = if ignore_rows_with_fields o && bool_decide (data l = names) then Ok None
    else Ok (Some (mkMapped
           (bind_all init (zip (rename (field_rename o) <$> names) (data l)))
           (line_num l))).
Proof.
  intros Heq. unfold map_line, reconcile.
  rewrite bool_decide_eq_true_2 by done.
  by rewrite output_bindings_zip, app_nil_r.
Qed.

(** C1.  Reconciling a row of M fields against N names.  With M < N and no
    [rest_val] the record fails with the error tagged "insufficient fields"
    that carries the line number of the row, N and M; with a [rest_val] the
    record is emitted and the names beyond the row are bound to it.  With
    M > N and no [rest_key] the record fails with the error tagged
    "too many fields"; with a [rest_key] the record is emitted, the extra
    values bound after the named fields, the one of index j (from zero)
    under [rest_key + str(j)]. *)
Theorem keyed_reader_arity init names o l :
  (length (data l) < length names → rest_val o = None →
   map_line init names o l
   = Raise (ValueError_arity "insufficient fields" (line_num l)
              (length names) (length (data l))))
  ∧ (length (data l) < length names → ∀ v, rest_val o = Some v →
     ∃ m, map_line init names o l = Ok (Some m)
       ∧ m_line_num m = line_num l
       ∧ items m
         = bind_all init
             (zip (rename (field_rename o) <$> names)
                (data l ++ replicate (length names - length (data l)) v))
       ∧ (NoDup (rename (field_rename o) <$> names) →
          ∀ i name, names !! i = Some name →
            items m !! rename (field_rename o) name
            = Some (default v (data l !! i))))
  ∧ (length names < length (data l) → rest_key o = None →
     map_line init names o l
     = Raise (ValueError_arity "too many fields" (line_num l)
                (length names) (length (data l))))
  ∧ (length names < length (data l) → ∀ k, rest_key o = Some k →
     ∃ m, map_line init names o l = Ok (Some m)
       ∧ m_line_num m = line_num l
       ∧ items m
         = bind_all init
             (zip (rename (field_rename o) <$> names)
                (take (length names) (data l))
              ++ rest_bindings k (drop (length names) (data l)))
       ∧ ∀ j v, data l !! (length names + j) = Some v →
           items m !! (k +:+ pretty j) = Some v).
Proof.
  split; [|split; [|split]].
  - intros Hlt Hrv. by rewrite map_line_short, Hrv.
  - intros Hlt v Hrv. rewrite map_line_short, Hrv by done.
    eexists. split; [reflexivity|]. split; [reflexivity|].
    split; [reflexivity|]. cbn [items].
    intros Hnd i name Hi. apply bind_all_lookup_NoDup.
    + rewrite fst_zip; [done|].
      rewrite length_fmap, length_app, length_replicate. lia.
    + apply list_elem_of_lookup. exists i.
      rewrite lookup_zip_with, list_lookup_fmap, Hi. simpl.
      destruct (data l !! i) as [x|] eqn:Hx.
      * by rewrite (lookup_app_l_Some _ _ _ _ Hx).
      * apply lookup_ge_None in Hx. apply lookup_lt_Some in Hi.
        rewrite lookup_app_r by done.
        rewrite lookup_replicate_2 by lia. reflexivity.
  - intros Hlt Hrk. by rewrite map_line_long, Hrk.
  - intros Hlt k Hrk. rewrite map_line_long, Hrk by done.
    eexists. split; [reflexivity|]. split; [reflexivity|].
    split; [reflexivity|]. cbn [items].
    intros j v Hj. rewrite bind_all_app.
    apply bind_all_lookup_NoDup; [apply rest_bindings_NoDup|].
    apply list_elem_of_lookup. exists j.
    by rewrite rest_bindings_lookup, lookup_drop, Hj.
Qed.

End map_line_facts.

Lemma keyed_reader_arity_witness :
  rdr_utils.map_line ∅ ["a"; "b"] rdr_utils.defaults (mkLine ["3"] 4)
  = Raise (ValueError_arity "insufficient fields" 4 2 1)
  ∧ ∃ m, rdr_utils.map_line ∅ ["a"; "b"]
           (rdr_utils.set_rest_key "a" rdr_utils.defaults)
           (mkLine ["3"; "4"; "5"] 4) = Ok (Some m)
       ∧ rdr_utils.items m !! "a0" = Some "5".
Proof.
  split.
  - exact (proj1 (keyed_reader_arity ∅ ["a"; "b"] rdr_utils.defaults
                    (mkLine ["3"] 4))
             ltac:(simpl; lia) eq_refl).
  - destruct (proj2 (proj2 (proj2 (keyed_reader_arity ∅ ["a"; "b"]
                (rdr_utils.set_rest_key "a" rdr_utils.defaults)
                (mkLine ["3"; "4"; "5"] 4))))
              ltac:(simpl; lia) "a" eq_refl) as (m & Hm & _ & _ & Hextra).
    exists m. split; [exact Hm|]. exact (Hextra 0 "5" eq_refl).
Defined.

(** ** Rows that repeat the header *)

Section duplicate_header_facts.

Import rdr_utils.

Implicit Types (init : gmap string string) (names : list string).
Implicit Types (o : options) (l : Line) (m : Mapped).

Lemma map_line_header_row init names o l :
  data l = names →
  map_line init names o l
  = if ignore_rows_with_fields o then Ok None
    else Ok (Some (mkMapped
           (bind_all init (zip (rename (field_rename o) <$> names) names))
           (line_num l))).
Proof.
  intros Hd. rewrite map_line_exact by (by rewrite Hd).
  rewrite bool_decide_eq_true_2, andb_true_r by done. by rewrite Hd.
Qed.

Lemma keyed_rows_skip init names o l rdr1 rdr2 :
  map_line init names o l = Ok None →
  keyed_rows init names o (rdr1 ++ l :: rdr2)
  = keyed_rows init names o (rdr1 ++ rdr2).
Proof.
  intros Hl. induction rdr1 as [|l1 rdr1 IH]; simpl.
  - by rewrite Hl.
  - by rewrite IH.
Qed.

End duplicate_header_facts.

(** C3.  A record whose field values equal the name list in force, position
    by position, is dropped when [ignore_rows_with_fields] is set: the run
    over a stream holding the record is the run over the stream without it,
    the same records yielded and the same records shown to the handler.
    With the flag cleared the record is emitted as data, every name bound to
    itself.  On the doctest input the default run yields the two data
    records, whether the names come from the first row or from the caller,
    and an identity handler sees these two only; with the flag cleared all
    three records are yielded. *)
Theorem duplicate_header_rows init names o l rdr1 rdr2 :
  (data l = names →
   rdr_utils.ignore_rows_with_fields o = true →
   rdr_utils.map_line init names o l = Ok None
   ∧ rdr_utils.keyed_rows init names o (rdr1 ++ l :: rdr2)
     = rdr_utils.keyed_rows init names o (rdr1 ++ rdr2))
  ∧ (data l = names →
     rdr_utils.ignore_rows_with_fields o = false →
     let m := rdr_utils.mkMapped
                (rdr_utils.bind_all init
                   (zip (rdr_utils.rename (rdr_utils.field_rename o) <$> names)
                      names))
                (line_num l) in
     rdr_utils.map_line init names o l = Ok (Some m)
     ∧ rdr_utils.keyed_rows init names o (l :: rdr2)
       = rdr_utils.run_yield o m (rdr_utils.keyed_rows init names o rdr2))
  ∧ dict_reader header_run None None
      (rdr_utils.set_handler Some rdr_utils.defaults)
    = rdr_utils.mkRun
        [rdr_utils.mkMapped {["a" := "1"; "b" := "2"]} 2;
         rdr_utils.mkMapped {["a" := "3"; "b" := "4"]} 4]
        [rdr_utils.mkMapped {["a" := "1"; "b" := "2"]} 2;
         rdr_utils.mkMapped {["a" := "3"; "b" := "4"]} 4]
        None
  ∧ dict_reader headerless_run (Some ["a"; "b"]) None rdr_utils.defaults
    = rdr_utils.mkRun
        [rdr_utils.mkMapped {["a" := "1"; "b" := "2"]} 1;
         rdr_utils.mkMapped {["a" := "3"; "b" := "4"]} 3]
        [] None
  ∧ dict_reader header_run None None
      (rdr_utils.set_ignore_rows_with_fields false rdr_utils.defaults)
    = rdr_utils.mkRun
        [rdr_utils.mkMapped {["a" := "1"; "b" := "2"]} 2;
         rdr_utils.mkMapped {["a" := "a"; "b" := "b"]} 3;
         rdr_utils.mkMapped {["a" := "3"; "b" := "4"]} 4]
        [] None.
Proof.
  split; [|split; [|split; [|split]]].
  - intros Hd Hflag.
    assert (rdr_utils.map_line init names o l = Ok None) as Hl.
    { by rewrite map_line_header_row, Hflag. }
    split; [exact Hl|]. by apply keyed_rows_skip.
  - intros Hd Hflag m.
    assert (rdr_utils.map_line init names o l = Ok (Some m)) as Hl.
    { by rewrite map_line_header_row, Hflag. }
    split; [exact Hl|]. simpl. by rewrite Hl.
  - vm_compute. reflexivity.
  - vm_compute. reflexivity.
  - vm_compute. reflexivity.
Qed.

Lemma duplicate_header_rows_witness :
  rdr_utils.keyed_rows ∅ ["a"; "b"] rdr_utils.defaults
    ([mkLine ["1"; "2"] 2] ++ mkLine ["a"; "b"] 3 :: [mkLine ["3"; "4"] 4])
  = rdr_utils.keyed_rows ∅ ["a"; "b"] rdr_utils.defaults
      ([mkLine ["1"; "2"] 2] ++ [mkLine ["3"; "4"] 4]).
Proof.
  exact (proj2 (proj1 (duplicate_header_rows ∅ ["a"; "b"] rdr_utils.defaults
                         (mkLine ["a"; "b"] 3)
                         [mkLine ["1"; "2"] 2] [mkLine ["3"; "4"] 4])
                  eq_refl eq_refl)).
Defined.

(** ** Keys and values of an emitted record *)

Section output_keys_facts.

Import rdr_utils.

Implicit Types (init : gmap string string) (names : list string).
Implicit Types (o : options) (l : Line) (m : Mapped).

(** What a successful reconciliation binds: as many values as names, the
    synthesized keys after them, and the values of the row in row order at
    the head of the value sequence. *)
Lemma reconcile_Ok names o l rec :
  reconcile names (rest_key o) (rest_val o) l = Ok rec →
  ∃ vals, rec.1 = zip names vals
    ∧ length vals = length names
    ∧ rec.2.*1 = rest_keys names o l
    ∧ ∀ i v, data l !! i = Some v → (vals ++ rec.2.*2) !! i = Some v.
Proof.
  unfold reconcile, rest_keys. intros Hrec.
  case_bool_decide as Heq; [|case_bool_decide as Hlt].
  - injection Hrec as <-. exists (data l). simpl.
    split; [done|]. split; [done|]. split.
    + rewrite <- Heq, drop_all. by destruct (rest_key o).
    + intros i v Hi. by rewrite app_nil_r.
  - destruct (rest_val o) as [fill|]; [|done]. injection Hrec as <-.
    eexists. simpl. split; [reflexivity|]. split.
    { rewrite length_app, length_replicate. lia. }
    split.
    + rewrite drop_ge by lia. by destruct (rest_key o).
    + intros i v Hi. rewrite app_nil_r. by apply lookup_app_l_Some.
  - destruct (rest_key o) as [k|]; [|done]. injection Hrec as <-.
    eexists. simpl. split; [reflexivity|]. split.
    { rewrite length_take. lia. }
    split; [reflexivity|].
    intros i v Hi. by rewrite rest_bindings_values, take_drop.
Qed.

Lemma map_line_Some init names o l m :
  map_line init names o l = Ok (Some m) →
  ∃ out, items m = bind_all init out
    ∧ out.*1 = output_keys names o l
    ∧ ∀ i v, data l !! i = Some v → out.*2 !! i = Some v.
Proof.
  unfold map_line. intros Hm.
  destruct (reconcile _ _ _ _) as [rec|] eqn:Hrec; [|done].
  destruct (_ && _); [done|]. injection Hm as <-.
  destruct (reconcile_Ok _ _ _ _ Hrec) as (vals & Hnamed & Hlen & Hrest & Hval).
  exists (output_bindings (field_rename o) rec). split; [done|].
  destruct rec as [named rest]. simpl in *. subst named.
  rewrite output_bindings_zip. unfold output_keys.
  rewrite !fmap_app, fst_zip, snd_zip, Hrest by (rewrite length_fmap; lia).
  done.
Qed.

End output_keys_facts.

(** C5 (amended).  For every record emitted by the keyed readers, with or
    without [field_rename]: the keys are those already on the fresh instance
    (none for a mapping) together with exactly the renamed names and the
    synthesized rest keys; a name without an entry in [field_rename] is its
    own output name; a raw name that is not an output key is not bound by
    the record; and when the output keys are pairwise distinct, every value
    of the row is bound under the output key of its position, so that none
    is dropped. *)
Theorem keyed_reader_key_set init names o l m :
  rdr_utils.map_line init names o l = Ok (Some m) →
  dom (rdr_utils.items m)
  = dom init ∪ list_to_set (rdr_utils.output_keys names o l)
  ∧ (∀ name, (∀ rn, rdr_utils.field_rename o = Some rn → rn !! name = None) →
       rdr_utils.rename (rdr_utils.field_rename o) name = name)
  ∧ (∀ name, name ∉ rdr_utils.output_keys names o l →
       rdr_utils.items m !! name = init !! name)
  ∧ (NoDup (rdr_utils.output_keys names o l) →
     ∀ i v, data l !! i = Some v →
       ∃ k, rdr_utils.output_keys names o l !! i = Some k
         ∧ rdr_utils.items m !! k = Some v).
Proof.
  intros Hm.
  destruct (map_line_Some _ _ _ _ _ Hm) as (out & Hitems & Hkeys & Hvals).
  split; [|split; [|split]].
  - by rewrite Hitems, bind_all_dom, Hkeys.
  - intros name Hnone. unfold rdr_utils.rename.
    destruct (rdr_utils.field_rename o) as [rn|]; [|done].
    by rewrite (Hnone rn eq_refl).
  - intros name Hname. rewrite Hitems. apply bind_all_lookup_notin.
    by rewrite Hkeys.
  - intros Hnd i v Hi. specialize (Hvals i v Hi).
    rewrite list_lookup_fmap in Hvals.
    destruct (out !! i) as [[k v']|] eqn:Hout; [|done].
    simpl in Hvals. injection Hvals as ->.
    exists k. split.
    + by rewrite <- Hkeys, list_lookup_fmap, Hout.
    + rewrite Hitems. apply bind_all_lookup_NoDup.
      * by rewrite Hkeys.
      * apply list_elem_of_lookup. by exists i.
Qed.

Lemma keyed_reader_key_set_witness :
  ∃ k, rdr_utils.output_keys ["a"; "b"]
         (rdr_utils.set_field_rename {["b" := "c"]} rdr_utils.defaults)
         (mkLine ["1"; "2"] 2) !! 1 = Some k
    ∧ ({["a" := "1"; "c" := "2"]} : gmap string string) !! k = Some "2".
Proof.
  pose (o := rdr_utils.set_field_rename {["b" := "c"]} rdr_utils.defaults).
  pose (l := mkLine ["1"; "2"] 2).
  assert (rdr_utils.map_line ∅ ["a"; "b"] o l
          = Ok (Some (rdr_utils.mkMapped {["a" := "1"; "c" := "2"]} 2)))
    as Hm by (vm_compute; reflexivity).
  assert (NoDup (rdr_utils.output_keys ["a"; "b"] o l)) as Hnd
    by (apply (bool_decide_unpack _); vm_compute; exact I).
  exact (proj2 (proj2 (proj2 (keyed_reader_key_set _ _ _ _ _ Hm)))
           Hnd 1 "2" eq_refl).
Defined.

(** C5, as stated, fails: with [field_rename] sending "b" to "a" the record
    built from the row 1,2 under the names a,b is the single item a: 2, and
    the value 1 of the row is bound under no key. *)
Lemma keyed_reader_rename_drops_value :
  rdr_utils.map_line ∅ ["a"; "b"]
    (rdr_utils.set_field_rename {["b" := "a"]} rdr_utils.defaults)
    (mkLine ["1"; "2"] 2)
  = Ok (Some (rdr_utils.mkMapped {["a" := "2"]} 2))
  ∧ ∀ k, ({["a" := "2"]} : gmap string string) !! k ≠ Some "1".
Proof.
  split; [vm_compute; reflexivity|].
  intros k. destruct (decide (k = "a")) as [->|Hne].
  - by rewrite lookup_singleton_eq.
  - by rewrite lookup_singleton_ne.
Qed.

(** ** The list writer *)

(** Unfolding a method body down to matches on its state. *)
Ltac run_method :=
  cbv [Writer.close Writer.write Writer.__init__ Writer.__exit__
       Writer.__del__ Writer.do_call mbind M_bind mret M_ret gets modify
       emit raise try_except_raise open_src_file file_close writerow
       csv_writer fst snd
       Writer.set_handler Writer.set_fobj Writer.set_managed Writer.set_obj
       Writer.set_closed Writer.handler Writer._fobj Writer._managed
       Writer._obj Writer._closed Writer.new negb].

Section Writer_facts.

Implicit Types (self : Writer.t) (log : list event) (data : row).

(** C8.  [write] on a record, in every state of the [Writer]: when the
    handler is set and returns [None] the call changes nothing and sends
    nothing; when it returns a record, that record is what is passed to
    [writerow] of the sink; without a handler the record itself is passed.
    What is passed to [writerow] of a sink goes to it as one row. *)
Theorem Writer_write_forwards self log data :
  Writer.write data (self, log)
  = match Writer.handler self with
    | Some h =>
        match h data with
        | None => (Ok (), (self, log))
        | Some data' => writerow (Writer._obj self) data' (self, log)
        end
    | None => writerow (Writer._obj self) data (self, log)
    end
  ∧ ∀ obj data', writerow (Some obj) data' (self, log)
                 = (Ok (), (self, log ++ [EvRow obj data'])).
Proof.
  destruct self as [handler fobj managed sink closed]. split.
  - run_method. destruct handler as [h|]; [|done]. by destruct (h data).
  - done.
Qed.

Lemma Writer_init_Ok src kwargs_ok handler log self log' :
  Writer.__init__ src kwargs_ok handler (Writer.new, log) = (Ok (), (self, log')) →
  ∃ fobj managed,
    Writer_open_on fobj managed self
    ∧ (src = Path fobj ∧ managed = true ∧ log' = log ++ [EvOpen fobj]
       ∨ src = Stream fobj ∧ managed = false ∧ log' = log).
Proof.
  unfold Writer_open_on.
  destruct src as [fobj| |fobj], kwargs_ok; run_method; try done.
  - intros [= <- <-]. exists fobj, true. simpl. eauto 10.
  - intros [= <- <-]. exists fobj, false. simpl. eauto 10.
Qed.

Lemma Writer_call_shut self log c :
  Writer_shut self →
  ∃ self', (Writer.do_call c (self, log)).2 = (self', log) ∧ Writer_shut self'.
Proof.
  unfold Writer_shut.
  destruct self as [handler fobj managed sink closed]. simpl.
  intros [-> ->]. destruct c as [| | |data]; run_method; eauto.
  destruct handler as [h|]; [destruct (h data)|]; eauto.
Qed.

Lemma Writer_call_close self log c fobj managed :
  Writer_open_on fobj managed self → Writer.is_close c = true →
  ∃ self', (Writer.do_call c (self, log)).2
           = (self', log ++ (if managed then [EvClose fobj] else []))
    ∧ Writer_shut self'.
Proof.
  unfold Writer_open_on, Writer_shut.
  destruct self as [handler stream managed' sink closed]. simpl.
  intros (-> & -> & -> & ->) Hc.
  destruct c as [| | |data]; [| | |done];
    destruct managed; run_method; rewrite ?app_nil_r; eauto.
Qed.

Lemma Writer_call_write self log data fobj managed :
  Writer_open_on fobj managed self →
  ∃ rows, (Writer.do_call (Writer.Write data) (self, log)).2
          = (self, log ++ (EvRow fobj <$> rows)).
Proof.
  unfold Writer_open_on.
  destruct self as [handler stream managed' sink closed]. simpl.
  intros (-> & -> & -> & ->). run_method.
  destruct handler as [h|]; [destruct (h data) as [data'|]|].
  - by exists [data'].
  - exists []. by rewrite app_nil_r.
  - by exists [data].
Qed.

Lemma closes_app fobj log1 log2 :
  closes fobj (log1 ++ log2) = closes fobj log1 + closes fobj log2.
Proof. unfold closes. by rewrite filter_app, length_app. Qed.

Lemma closes_rows fobj h rows : closes fobj (EvRow h <$> rows) = 0.
Proof.
  unfold closes. induction rows as [|r rows IH]; [done|].
  rewrite fmap_cons, filter_cons_False; done.
Qed.

Lemma Writer_calls_shut cs self log fobj :
  Writer_shut self →
  closes fobj (Writer.do_calls cs (self, log)).2 = closes fobj log
  ∧ Writer_shut (Writer.do_calls cs (self, log)).1.
Proof.
  revert self. induction cs as [|c cs IH]; intros self Hshut; [done|].
  destruct (Writer_call_shut self log c Hshut) as (self' & Hcall & Hshut').
  unfold Writer.do_calls in *. cbn [foldl]. rewrite Hcall. by apply IH.
Qed.

Lemma Writer_calls_open cs self log fobj managed h :
  Writer_open_on fobj managed self →
  existsb Writer.is_close cs = true →
  closes h (Writer.do_calls cs (self, log)).2
  = closes h log + (if managed && bool_decide (fobj = h) then 1 else 0)
  ∧ Writer_shut (Writer.do_calls cs (self, log)).1.
Proof.
  revert log. induction cs as [|c cs IH]; intros log Hopen Hcs; [done|].
  simpl in Hcs. destruct (Writer.is_close c) eqn:Hc.
  - destruct (Writer_call_close self log c fobj managed Hopen Hc)
      as (self' & Hcall & Hshut).
    unfold Writer.do_calls. cbn [foldl]. rewrite Hcall.
    destruct (Writer_calls_shut cs self'
                (log ++ (if managed then [EvClose fobj] else [])) h Hshut)
      as [Hcount Hshut'].
    unfold Writer.do_calls in Hcount, Hshut'. rewrite Hcount.
    split; [|done]. rewrite closes_app. f_equal.
    destruct managed; [|done]. unfold closes. simpl.
    case_bool_decide as Hh.
    + subst h. by rewrite filter_cons_True.
    + rewrite filter_cons_False; [done|]. by intros [= ->].
  - destruct c as [| | |data]; try done.
    destruct (Writer_call_write self log data fobj managed Hopen)
      as (rows & Hcall).
    unfold Writer.do_calls. cbn [foldl]. rewrite Hcall.
    destruct (IH (log ++ (EvRow fobj <$> rows)) Hopen Hcs) as [Hcount Hshut].
    unfold Writer.do_calls in Hcount, Hshut. rewrite Hcount.
    split; [|done]. by rewrite closes_app, closes_rows, Nat.add_0_r.
Qed.

(** C7 (amended).  [close] on a [Writer]: a second [close] right after a
    first changes nothing and sends nothing, and so does [close] on a closed
    instance.  After a successful construction, whatever calls follow
    ([close], the exit of a [with] block, collection, writes between them),
    as soon as one of them closes, the stream has been closed exactly once
    when the [Writer] opened it itself (a path), and not at all when the
    caller supplied it; the instance ends closed. *)
Theorem Writer_close_once :
  (∀ s, Writer.close (Writer.close s).2 = (Ok (), (Writer.close s).2))
  ∧ (∀ self log, Writer._closed self = true →
       Writer.close (self, log) = (Ok (), (self, log)))
  ∧ (∀ src kwargs_ok handler s cs h,
       Writer.__init__ src kwargs_ok handler (Writer.new, []) = (Ok (), s) →
       existsb Writer.is_close cs = true →
       closes h (Writer.do_calls cs s).2
       = match src with
         | Path fobj => if bool_decide (fobj = h) then 1 else 0
         | _ => 0
         end
       ∧ Writer._closed (Writer.do_calls cs s).1 = true).
Proof.
  split; [|split].
  - intros [[handler fobj managed sink closed] log].
    destruct closed; [done|]. destruct managed; [|done].
    destruct fobj; done.
  - intros [handler fobj managed sink closed] log. simpl. by intros ->.
  - intros src kwargs_ok handler [self log] cs h Hinit Hcs.
    destruct (Writer_init_Ok _ _ _ _ _ _ Hinit)
      as (fobj & managed & Hopen & Hsrc).
    destruct (Writer_calls_open cs self log fobj managed h Hopen Hcs)
      as [Hcount [Hclosed _]].
    split; [|done]. rewrite Hcount.
    destruct Hsrc as [(-> & -> & ->)|(-> & -> & ->)]; done.
Qed.

Lemma Writer_close_once_witness :
  closes 0 (Writer.do_calls
              [Writer.Write ["a"]; Writer.Exit; Writer.Close; Writer.Del]
              (Writer.__init__ (Path 0) true None (Writer.new, [])).2).2 = 1.
Proof.
  exact (proj1 (proj2 (proj2 Writer_close_once) (Path 0) true None _
                  [Writer.Write ["a"]; Writer.Exit; Writer.Close; Writer.Del]
                  0 eq_refl eq_refl)).
Defined.

(** C7, as stated, fails: a [Writer] over a stream supplied by the caller
    is constructed and closed, and the stream is not closed at all. *)
Lemma Writer_close_leaves_supplied_stream :
  Writer.do_calls [Writer.Close]
    (Writer.__init__ (Stream 7) true None (Writer.new, [])).2
  = (Writer.mk None None false None true, [])
  ∧ closes 7 (Writer.do_calls [Writer.Close]
                (Writer.__init__ (Stream 7) true None (Writer.new, [])).2).2
    = 0.
Proof. split; reflexivity. Qed.

End Writer_facts.

(** ** Construction of the writers *)

Ltac run_map_method :=
  cbv [DictWriter.__init__ ObjWriter.__init__ _MapWriter.__init__
       _MapWriter.Writer_ _MapWriter.on_wrtr _MapWriter.SpooledTemporaryFile
       _MapWriter.set_handler _MapWriter.set_minimize _MapWriter.set_include
       _MapWriter.set_rest_val _MapWriter.set_extras_action
       _MapWriter.set_fields _MapWriter.set_field_set _MapWriter.set_wrtr
       _MapWriter.set_fields_used _MapWriter.set_fobj _MapWriter.set_closed
       _MapWriter.handler _MapWriter.minimize _MapWriter.include
       _MapWriter.rest_val _MapWriter.extras_action _MapWriter.fields
       _MapWriter._field_set _MapWriter._wrtr _MapWriter._fields_used
       _MapWriter._fobj _MapWriter._closed _MapWriter.new];
  run_method.

Section construction_facts.

Implicit Types (src : source) (log : list event).

Lemma left_open_open_then_closed src : left_open (open_then_closed src) = [].
Proof.
  destruct src as [fobj| |fobj]; [|done..]. simpl.
  rewrite bool_decide_eq_true_2; [done|]. apply list_elem_of_singleton. done.
Qed.

Lemma Writer_init_Raise src kwargs_ok handler log e self log' :
  Writer.__init__ src kwargs_ok handler (Writer.new, log)
  = (Raise e, (self, log')) →
  log' = log ++ open_then_closed src ∧ Writer._closed self = true.
Proof.
  destruct src as [fobj| |fobj], kwargs_ok; run_method; try done.
  all: intros [= <- <- <-]; rewrite <- ?app_assoc, ?app_nil_r. all: done.
Qed.

Lemma MapWriter_init_Raise src fields kwargs_ok spool_ok self0 log e self log' :
  _MapWriter.__init__ src fields kwargs_ok spool_ok (self0, log)
  = (Raise e, (self, log')) →
  log' = log ++ open_then_closed src.
Proof.
  destruct self0 as [h0 minimize include rv ea fs0 fset0 w0 used0 spool0 c0].
  destruct src as [fobj| |fobj], kwargs_ok; run_map_method.
  all: try (intros [= <- <- <-]; by rewrite <- ?app_assoc, ?app_nil_r).
  all: destruct minimize; try done.
  all: case_bool_decide.
  all: try (intros [= <- <- <-]; by rewrite <- ?app_assoc, ?app_nil_r).
  all: destruct spool_ok; try done.
  all: intros [= <- <- <-]; by rewrite <- ?app_assoc, ?app_nil_r.
Qed.

Lemma DictWriter_init_outcome src fields kwargs_ok spool_ok handler minimize
    include rest_val extras_action log :
  let extras : gset string :=
    list_to_set (default [] include) ∖ list_to_set (col_name <$> fields) in
  let r := DictWriter.__init__ src fields kwargs_ok spool_ok handler minimize
             include rest_val extras_action (_MapWriter.new, log) in
  r.1 = writer_outcome src kwargs_ok
          (if minimize then
             if bool_decide (extras ≠ ∅) then
               Raise (ValueError_include
                        "include specifies fields not specified" extras)
             else if spool_ok then Ok () else Raise TempfileError
           else Ok ())
  ∧ (r.1 ≠ Ok () → r.2.2 = log ++ open_then_closed src).
Proof.
  destruct src as [fobj| |fobj], kwargs_ok; run_map_method.
  all: rewrite <- ?app_assoc, ?app_nil_r; try done.
  all: destruct minimize; try done.
  all: case_bool_decide; rewrite <- ?app_assoc, ?app_nil_r; try done.
  all: destruct spool_ok; rewrite <- ?app_assoc, ?app_nil_r; done.
Qed.

Lemma ObjWriter_init_outcome src fields kwargs_ok spool_ok handler minimize
    include rest_val log :
  let extras : gset string :=
    list_to_set (default [] include) ∖ list_to_set (col_name <$> fields) in
  let r := ObjWriter.__init__ src fields kwargs_ok spool_ok handler minimize
             include rest_val (_MapWriter.new, log) in
  r.1 = writer_outcome src kwargs_ok
          (if minimize then
             if bool_decide (extras ≠ ∅) then
               Raise (ValueError_include
                        "include specifies fields not specified" extras)
             else if spool_ok then Ok () else Raise TempfileError
           else Ok ())
  ∧ (r.1 ≠ Ok () → r.2.2 = log ++ open_then_closed src).
Proof.
  destruct src as [fobj| |fobj], kwargs_ok; run_map_method.
  all: rewrite <- ?app_assoc, ?app_nil_r; try done.
  all: destruct minimize; try done.
  all: case_bool_decide; rewrite <- ?app_assoc, ?app_nil_r; try done.
  all: destruct spool_ok; rewrite <- ?app_assoc, ?app_nil_r; done.
Qed.

Lemma open_then_closed_no_row src fobj data :
  (EvRow fobj data ∉ open_then_closed src)
  ∧ (EvSpool ∉ open_then_closed src).
Proof.
  destruct src as [h| |h]; simpl; split.
  all: rewrite ?elem_of_cons, elem_of_nil.
  all: try (intros [?|[?|?]]; done).
  all: by intros ?.
Qed.

(** C10.  A construction of [Writer] or of [_MapWriter] that raises leaves
    no stream open: what it added to the log is nothing, or the opening of
    the stream followed by its closing, and the failed [Writer] instance is
    still marked closed, so that its collection closes nothing again. *)
Theorem failed_construction_closes_stream :
  (∀ src kwargs_ok handler log e self log',
     Writer.__init__ src kwargs_ok handler (Writer.new, log)
     = (Raise e, (self, log')) →
     log' = log ++ open_then_closed src
     ∧ left_open (open_then_closed src) = []
     ∧ Writer.__del__ (self, log') = (Ok (), (self, log')))
  ∧ (∀ src fields kwargs_ok spool_ok self0 log e self log',
       _MapWriter.__init__ src fields kwargs_ok spool_ok (self0, log)
       = (Raise e, (self, log')) →
       log' = log ++ open_then_closed src
       ∧ left_open (open_then_closed src) = []).
Proof.
  split.
  - intros src kwargs_ok handler log e self log' Hinit.
    destruct (Writer_init_Raise _ _ _ _ _ _ _ Hinit) as [Hlog Hclosed].
    split; [done|]. split; [apply left_open_open_then_closed|].
    destruct self as [h fobj managed sink closed]. simpl in Hclosed.
    by subst closed.
  - intros src fields kwargs_ok spool_ok self0 log e self log' Hinit.
    split; [by eapply MapWriter_init_Raise|].
    apply left_open_open_then_closed.
Qed.

Lemma failed_construction_closes_stream_witness :
  ∃ self, Writer.__init__ (Path 0) false None (Writer.new, [])
          = (Raise CsvError, (self, [EvOpen 0; EvClose 0]))
    ∧ left_open (open_then_closed (Path 0)) = [].
Proof.
  eexists. split; [reflexivity|].
  exact (proj1 (proj2 (proj1 failed_construction_closes_stream
                         (Path 0) false None [] CsvError _ _ eq_refl))).
Defined.

(** C6 (amended).  Constructing a minimizing [DictWriter] or [ObjWriter]
    whose [include] holds a name outside the declared fields always fails,
    and no row is written and no spool made.  The stream is opened first:
    when it cannot be opened, or the csv sink cannot be made, that error is
    the one raised; otherwise the error is the [ValueError] that names the
    offending fields, raised after the stream the writer opened has been
    closed again. *)
Theorem include_outside_fields_rejected src fields kwargs_ok spool_ok handler
    include rest_val extras_action log :
  let extras : gset string :=
    list_to_set include ∖ list_to_set (col_name <$> fields) in
  let rejected := writer_outcome src kwargs_ok
    (Raise (ValueError_include "include specifies fields not specified"
              extras)) in
  let rd := DictWriter.__init__ src fields kwargs_ok spool_ok handler true
              (Some include) rest_val extras_action (_MapWriter.new, log) in
  let ro := ObjWriter.__init__ src fields kwargs_ok spool_ok handler true
              (Some include) rest_val (_MapWriter.new, log) in
  extras ≠ ∅ →
  (rd.1 = rejected ∧ rd.2.2 = log ++ open_then_closed src)
  ∧ (ro.1 = rejected ∧ ro.2.2 = log ++ open_then_closed src)
  ∧ rejected ≠ Ok ()
  ∧ left_open (open_then_closed src) = []
  ∧ ∀ fobj data, (EvRow fobj data ∉ open_then_closed src)
                 ∧ (EvSpool ∉ open_then_closed src).
Proof.
  intros extras rejected rd ro Hextras.
  assert (rejected ≠ Ok ()) as Hrej.
  { unfold rejected, writer_outcome. by destruct src, kwargs_ok. }
  destruct (DictWriter_init_outcome src fields kwargs_ok spool_ok handler true
              (Some include) rest_val extras_action log) as [Hd Hdlog].
  destruct (ObjWriter_init_outcome src fields kwargs_ok spool_ok handler true
              (Some include) rest_val log) as [Ho Hollog].
  simpl in Hd, Hdlog, Ho, Hollog.
  rewrite bool_decide_eq_true_2 in Hd, Ho by done.
  fold extras rejected in Hd, Ho. fold rd in Hd, Hdlog. fold ro in Ho, Hollog.
  split; [|split; [|split; [|split]]].
  - split; [done|]. apply Hdlog. by rewrite Hd.
  - split; [done|]. apply Hollog. by rewrite Ho.
  - done.
  - apply left_open_open_then_closed.
  - intros. apply open_then_closed_no_row.
Qed.

Lemma include_outside_fields_rejected_witness :
  (DictWriter.__init__ (Path 0) [Name "a"; Name "b"] true true None true
     (Some ["b"; "z"]) None "raise" (_MapWriter.new, [])).1
  = Raise (ValueError_include "include specifies fields not specified"
             {["z"]})
  ∧ (DictWriter.__init__ (Path 0) [Name "a"; Name "b"] true true None true
       (Some ["b"; "z"]) None "raise" (_MapWriter.new, [])).2.2
    = [EvOpen 0; EvClose 0].
Proof.
  assert ((list_to_set ["b"; "z"] ∖ list_to_set (col_name <$> [Name "a"; Name "b"])
           : gset string) ≠ ∅) as Hextras.
  { apply (bool_decide_unpack _). vm_compute. exact I. }
  exact (proj1 (include_outside_fields_rejected (Path 0) [Name "a"; Name "b"]
                  true true None ["b"; "z"] None "raise" [] Hextras)).
Defined.

(** C6, as stated, fails: the stream is opened, and closed again, before
    the [include] list is rejected; and when the stream cannot be opened the
    error raised is the one of the stream, not the one of [include]. *)
Lemma include_rejected_after_open :
  DictWriter.__init__ (Path 0) [Name "a"] true true None true (Some ["z"])
    None "raise" (_MapWriter.new, [])
  = (Raise (ValueError_include "include specifies fields not specified"
              {["z"]}),
     (_MapWriter.mk None true (Some ["z"]) None (Some "raise") ["a"] {["a"]}
        (Some (Writer.mk None None true None true)) {["z"]} None true,
      [EvOpen 0; EvClose 0]))
  ∧ (DictWriter.__init__ BadPath [Name "a"] true true None true (Some ["z"])
       None "raise" (_MapWriter.new, [])).1
    = Raise OSError.
Proof. split; vm_compute; reflexivity. Qed.

(** C9.  Without [minimize] the [include] argument is not looked at: the
    construction of a [DictWriter] or [ObjWriter] ends as the construction
    of its [Writer] does, with success when the stream opens and the sink
    is made, and never with the error raised for [include], whatever the
    fields and whatever [include] holds. *)
Theorem no_include_check_without_minimize src fields kwargs_ok spool_ok
    handler include rest_val extras_action log :
  let rd := DictWriter.__init__ src fields kwargs_ok spool_ok handler false
              include rest_val extras_action (_MapWriter.new, log) in
  let ro := ObjWriter.__init__ src fields kwargs_ok spool_ok handler false
              include rest_val (_MapWriter.new, log) in
  rd.1 = writer_outcome src kwargs_ok (Ok ())
  ∧ ro.1 = writer_outcome src kwargs_ok (Ok ())
  ∧ (Writer.__init__ src kwargs_ok None (Writer.new, log)).1
    = writer_outcome src kwargs_ok (Ok ())
  ∧ ∀ msg extras, rd.1 ≠ Raise (ValueError_include msg extras)
                  ∧ ro.1 ≠ Raise (ValueError_include msg extras).
Proof.
  intros rd ro.
  destruct (DictWriter_init_outcome src fields kwargs_ok spool_ok handler false
              include rest_val extras_action log) as [Hd _].
  destruct (ObjWriter_init_outcome src fields kwargs_ok spool_ok handler false
              include rest_val log) as [Ho _].
  simpl in Hd, Ho. fold rd in Hd. fold ro in Ho.
  split; [done|]. split; [done|]. split.
  - by destruct src, kwargs_ok.
  - intros msg extras. rewrite Hd, Ho. by destruct src, kwargs_ok.
Qed.

End construction_facts.

(** ** The minimizing writer *)

Ltac run_mixin :=
  cbv [wrtr_utils.write wrtr_utils.finalize wrtr_utils.close
       wrtr_utils.for_each wrtr_utils.order wrtr_utils.fill spooling
       finalized];
  run_map_method.

Section minimizing_writer_facts.

Implicit Types (fields : list string) (maps : list (gmap string string)).
Implicit Types (m : gmap string string) (used : gset string).

Lemma col_name_Name fields : col_name <$> (Name <$> fields) = fields.
Proof.
  induction fields as [|f fields IH]; [done|].
  rewrite !fmap_cons. cbn [col_name]. by rewrite IH.
Qed.

Lemma DictWriter_init_spooling fobj fields rest_val :
  DictWriter.__init__ (Path fobj) (Name <$> fields) true true None true None
    rest_val "raise" (_MapWriter.new, [])
  = (Ok (), (spooling fobj fields rest_val ∅ [], [EvOpen fobj; EvSpool])).
Proof.
  run_mixin. rewrite col_name_Name.
  rewrite bool_decide_eq_false_2; [done|].
  intros Hne. apply Hne. apply subseteq_empty_difference_L.
  apply empty_subseteq.
Qed.

Lemma write_spooling fobj fields rest_val used records m log :
  wrtr_utils.write m (spooling fobj fields rest_val used records, log)
  = (Ok (), (spooling fobj fields rest_val
               (used ∪ list_to_set (wrtr_utils.pairs fields m).*1)
               (records ++ [wrtr_utils.pairs fields m]), log)).
Proof. reflexivity. Qed.

Lemma for_each_write_spooling fobj fields rest_val maps used records log :
  wrtr_utils.for_each wrtr_utils.write maps
    (spooling fobj fields rest_val used records, log)
  = (Ok (), (spooling fobj fields rest_val (used_after fields used maps)
               (records ++ (wrtr_utils.pairs fields <$> maps)), log)).
Proof.
  revert used records. induction maps as [|m maps IH]; intros used records.
  - simpl. by rewrite app_nil_r.
  - cbn [wrtr_utils.for_each]. unfold mbind, M_bind at 1.
    rewrite write_spooling, IH. simpl. by rewrite <- app_assoc.
Qed.

Lemma replay_spooling fobj fields rest_val used records (g : _ → row) log :
  wrtr_utils.for_each (λ kv, _MapWriter.on_wrtr (Writer.write (g kv))) records
    (spooling fobj fields rest_val used records, log)
  = (Ok (), (spooling fobj fields rest_val used records,
             log ++ (EvRow fobj <$> (g <$> records)))).
Proof.
  generalize records at 2 3. intros spill. revert log.
  induction records as [|kv records IH]; intros log.
  - simpl. by rewrite app_nil_r.
  - cbn [wrtr_utils.for_each]. unfold mbind, M_bind at 1.
    change (_MapWriter.on_wrtr (Writer.write (g kv))
              (spooling fobj fields rest_val used spill, log))
      with (Ok (), (spooling fobj fields rest_val used spill,
                    log ++ [EvRow fobj (g kv)])).
    cbv beta iota. rewrite IH. simpl. by rewrite <- app_assoc.
Qed.

Lemma finalize_spooling fobj fields rest_val used records log :
  let names := filter (λ f, f ∈ used) fields in
  wrtr_utils.finalize (spooling fobj fields rest_val used records, log)
  = (Ok (), (_MapWriter.set_fobj None
               (spooling fobj fields rest_val used records),
             (log ++ [EvRow fobj names])
             ++ (EvRow fobj
                 <$> ((λ kv, wrtr_utils.extract names (default "" rest_val)
                               (list_to_map kv)) <$> records)))).
Proof.
  intros names.
  change (wrtr_utils.finalize (spooling fobj fields rest_val used records, log))
    with ((wrtr_utils.for_each
             (λ kv, _MapWriter.on_wrtr
                      (Writer.write
                         (wrtr_utils.extract names (default "" rest_val)
                            (list_to_map kv)))) records ;;
           modify (_MapWriter.set_fobj None))
            (spooling fobj fields rest_val used records,
             log ++ [EvRow fobj names])).
  unfold mbind, M_bind at 1.
  by rewrite (replay_spooling fobj fields rest_val used records
                (λ kv, wrtr_utils.extract names (default "" rest_val)
                         (list_to_map kv))).
Qed.

Lemma close_spooling fobj fields rest_val used records log :
  let names := filter (λ f, f ∈ used) fields in
  wrtr_utils.close (spooling fobj fields rest_val used records, log)
  = (Ok (), (finalized fields rest_val used,
             ((log ++ [EvRow fobj names])
              ++ (EvRow fobj
                  <$> ((λ kv, wrtr_utils.extract names (default "" rest_val)
                                (list_to_map kv)) <$> records)))
             ++ [EvClose fobj])).
Proof.
  intros names.
  change (wrtr_utils.close (spooling fobj fields rest_val used records, log))
    with ((wrtr_utils.finalize ;;
           _MapWriter.on_wrtr Writer.close ;;
           modify (_MapWriter.set_closed true))
            (spooling fobj fields rest_val used records, log)).
  unfold mbind, M_bind at 1. by rewrite finalize_spooling.
Qed.

Lemma rows_written_app fobj log1 log2 :
  rows_written fobj (log1 ++ log2)
  = rows_written fobj log1 ++ rows_written fobj log2.
Proof. apply omap_app. Qed.

Lemma rows_written_rows fobj rows : rows_written fobj (EvRow fobj <$> rows) = rows.
Proof.
  unfold rows_written. induction rows as [|r rows IH]; [done|].
  rewrite fmap_cons. cbn [omap list_omap].
  rewrite bool_decide_eq_true_2 by done. by rewrite IH.
Qed.

Lemma write_keyed_log fobj fields rest_val maps :
  let names := filter (λ f, f ∈ used_after fields ∅ maps) fields in
  write_keyed (Path fobj) fields rest_val maps (_MapWriter.new, [])
  = (Ok (), (finalized fields rest_val (used_after fields ∅ maps),
             (([EvOpen fobj; EvSpool] ++ [EvRow fobj names])
              ++ (EvRow fobj
                  <$> ((λ kv, wrtr_utils.extract names (default "" rest_val)
                                (list_to_map kv))
                       <$> (wrtr_utils.pairs fields <$> maps))))
             ++ [EvClose fobj])).
Proof.
  intros names. unfold write_keyed.
  unfold mbind, M_bind at 1. rewrite DictWriter_init_spooling.
  unfold mbind, M_bind at 1. rewrite for_each_write_spooling.
  rewrite app_nil_l. apply close_spooling.
Qed.

Lemma pairs_elem fields m k v :
  (k, v) ∈ wrtr_utils.pairs fields m ↔ k ∈ fields ∧ m !! k = Some v.
Proof.
  unfold wrtr_utils.pairs. rewrite list_elem_of_omap. split.
  - intros (f & Hf & Hkv). destruct (m !! f) as [x|] eqn:Hx; [|done].
    simpl in Hkv. injection Hkv as <- <-. done.
  - intros [Hk Hv]. exists k. split; [done|]. by rewrite Hv.
Qed.

Lemma pairs_lookup fields m f :
  f ∈ fields →
  (list_to_map (wrtr_utils.pairs fields m) : gmap string string) !! f = m !! f.
Proof.
  intros Hf. destruct (m !! f) as [v|] eqn:Hv.
  - apply elem_of_list_to_map'; [|by apply pairs_elem].
    intros v' _ [_ Hv']%pairs_elem. congruence.
  - apply not_elem_of_list_to_map_1. rewrite list_elem_of_fmap.
    intros ([k v] & -> & [_ Hkv]%pairs_elem). simpl in Hv. congruence.
Qed.

Lemma extract_ext names fill m1 m2 :
  (∀ f, f ∈ names → m1 !! f = m2 !! f) →
  wrtr_utils.extract names fill m1 = wrtr_utils.extract names fill m2.
Proof.
  intros Heq. unfold wrtr_utils.extract. apply list_fmap_ext.
  intros i f Hi. rewrite (Heq f); [done|].
  apply list_elem_of_lookup. by exists i.
Qed.

Lemma filter_ext_in {A} (P Q : A → Prop) `{!∀ x, Decision (P x)}
    `{!∀ x, Decision (Q x)} (l : list A) :
  (∀ x, x ∈ l → P x ↔ Q x) → filter P l = filter Q l.
Proof.
  induction l as [|x l IH]; intros Hext; [done|].
  rewrite !filter_cons.
  rewrite IH by (intros y Hy; apply Hext; by right).
  destruct (decide (P x)) as [HP|HP], (decide (Q x)) as [HQ|HQ]; try done.
  - destruct HQ. apply Hext; [by left|done].
  - destruct HP. apply Hext; [by left|done].
Qed.

Lemma used_after_elem fields used maps f :
  f ∈ used_after fields used maps
  ↔ f ∈ used ∨ (f ∈ fields ∧ f ∈ used_keys maps).
Proof.
  unfold used_after, used_keys. revert used.
  induction maps as [|m maps IH]; intros used.
  - simpl. rewrite elem_of_empty. tauto.
  - cbn [foldl]. rewrite IH, fmap_cons, union_list_cons, !elem_of_union.
    rewrite elem_of_list_to_set, list_elem_of_fmap, elem_of_dom.
    split.
    + intros [[Hu|Hp]|[Hf Hm]]; [by left| |by right; split; [|right]].
      destruct Hp as ([k v] & -> & [Hk Hv]%pairs_elem).
      right. split; [done|]. left. by exists v.
    + intros [Hu|[Hf [[v Hv]|Hm]]]; [by left; left| |by right].
      left. right. exists (f, v). split; [done|]. by apply pairs_elem.
Qed.

Lemma final_order_minimal fields maps :
  filter (λ f, f ∈ used_after fields ∅ maps) fields = minimal_header fields maps.
Proof.
  unfold minimal_header. apply filter_ext_in. intros f Hf.
  rewrite used_after_elem, elem_of_empty. tauto.
Qed.

(** The rows a minimizing writer leaves on the stream: the minimal header,
    then one row per mapping, extracted at that header. *)
Lemma written_rows fobj fields rest_val maps :
  written fobj fields rest_val maps
  = minimal_header fields maps
    :: (wrtr_utils.extract (minimal_header fields maps) (default "" rest_val)
        <$> maps).
Proof.
  unfold written. rewrite write_keyed_log. cbn [snd].
  rewrite !rows_written_app, rows_written_rows, final_order_minimal.
  cbn [rows_written omap list_omap app].
  rewrite bool_decide_eq_true_2 by done. rewrite app_nil_r. cbn [app].
  f_equal. rewrite <- list_fmap_compose. apply list_fmap_ext.
  intros i m _. cbn [compose]. apply extract_ext. intros f Hf.
  apply pairs_lookup. unfold minimal_header in Hf.
  by apply list_elem_of_filter in Hf as [_ Hf].
Qed.

End minimizing_writer_facts.

(** ** Reading back what a minimizing writer wrote *)

Section read_back_facts.

Implicit Types (header : list string) (rows : list row) (l : Line).
Implicit Types (m : gmap string string).

Lemma list_reader_trimmed (rdr : list Line) :
  Forall (λ l, data l ≠ [] ∧ Forall trimmed (data l)) rdr →
  rdr_utils.list_reader rdr false false true = rdr.
Proof.
  unfold rdr_utils.list_reader. induction 1 as [|[d n] rdr [Hne Htr] _ IH].
  - reflexivity.
  - cbn [omap list_omap data line_num]. simpl in Hne, Htr. rewrite IH.
    rewrite bool_decide_eq_false_2 by done. cbn [andb].
    f_equal. f_equal.
    rewrite <- (list_fmap_id d) at 2. by apply Forall_fmap_ext_1.
Qed.

Lemma keyed_rows_exact header (rdr : list Line) :
  Forall (λ l, length (data l) = length header ∧ data l ≠ header) rdr →
  rdr_utils.keyed_rows ∅ header rdr_utils.defaults rdr
  = rdr_utils.mkRun
      ((λ l, rdr_utils.mkMapped
               (rdr_utils.bind_all ∅ (zip header (data l))) (line_num l))
       <$> rdr) [] None.
Proof.
  induction 1 as [|l rdr [Hlen Hne] _ IH]; [reflexivity|].
  cbn [rdr_utils.keyed_rows]. rewrite map_line_exact by done.
  rewrite bool_decide_eq_false_2 by done. cbn [andb rdr_utils.defaults
    rdr_utils.ignore_rows_with_fields rdr_utils.field_rename rdr_utils.rename].
  rewrite list_fmap_id, IH. reflexivity.
Qed.

Lemma dict_reader_replays (rdr : csv_reader) header rows :
  rdr.*1 = header :: rows →
  header ≠ [] →
  Forall (Forall trimmed) (header :: rows) →
  Forall (λ r, length r = length header ∧ r ≠ header) rows →
  rdr_utils.raised (dict_reader rdr None None rdr_utils.defaults) = None
  ∧ rdr_utils.handled (dict_reader rdr None None rdr_utils.defaults) = []
  ∧ read_back rdr = (λ r, rdr_utils.bind_all ∅ (zip header r)) <$> rows.
Proof.
  intros Hrdr Hhdr Htrim Hrows.
  unfold read_back, dict_reader, rdr_utils.dict_reader, rdr_utils.keyed_reader,
    reader_gen.
  cbn [rdr_utils.defaults rdr_utils.leading_ws rdr_utils.trailing_ws
       rdr_utils.ignore_blanks].
  pose proof (reader_gen_inner_data 0 rdr) as Hdata. rewrite Hrdr in Hdata.
  assert (Forall (λ l, data l ≠ [] ∧ Forall trimmed (data l))
            (reader_gen_inner 0 rdr)) as Hlines.
  { apply Forall_fmap with (f := data) (P := λ d, d ≠ [] ∧ Forall trimmed d).
    rewrite Hdata. apply Forall_forall. intros r Hr. split.
    - apply elem_of_cons in Hr as [->|Hr]; [done|].
      rewrite Forall_forall in Hrows. destruct (Hrows r Hr) as [Hlen _].
      intros ->. by destruct header.
    - rewrite Forall_forall in Htrim. by apply Htrim. }
  rewrite list_reader_trimmed by done.
  destruct (reader_gen_inner 0 rdr) as [|lh ls]; [done|].
  rewrite fmap_cons in Hdata. injection Hdata as Hlh Hls.
  rewrite Hlh, keyed_rows_exact.
  - cbn [rdr_utils.raised rdr_utils.handled rdr_utils.yielded].
    split; [done|]. split; [done|].
    rewrite <- Hls, <- !list_fmap_compose. done.
  - apply Forall_fmap with (f := data)
      (P := λ d, length d = length header ∧ d ≠ header).
    by rewrite Hls.
Qed.

Lemma zip_extract header fill m :
  zip header (wrtr_utils.extract header fill m)
  = (λ f, (f, default fill (m !! f))) <$> header.
Proof.
  unfold wrtr_utils.extract. induction header as [|f header IH]; [done|].
  rewrite !fmap_cons. cbn [zip zip_with]. by rewrite <- IH.
Qed.

Lemma bind_all_graph (init : gmap string string) (F : string → string)
    (names : list string) f :
  rdr_utils.bind_all init ((λ g, (g, F g)) <$> names) !! f
  = if decide (f ∈ names) then Some (F f) else init !! f.
Proof.
  revert init. induction names as [|g names IH]; intros init.
  - rewrite decide_False; [done|]. apply not_elem_of_nil.
  - rewrite fmap_cons. cbn [rdr_utils.bind_all foldl fst snd].
    change (foldl _ ?i ?l) with (rdr_utils.bind_all i l). rewrite IH.
    destruct (decide (f ∈ names)) as [Hin|Hout].
    + rewrite decide_True; [done|]. by right.
    + destruct (decide (f = g)) as [->|Hne].
      * rewrite decide_True by (by left). apply lookup_insert_eq.
      * rewrite decide_False.
        -- by rewrite lookup_insert_ne.
        -- rewrite not_elem_of_cons. done.
Qed.

Lemma replayed_lookup header fill m f :
  replayed header fill m !! f
  = if decide (f ∈ header) then Some (default fill (m !! f)) else None.
Proof.
  unfold replayed. rewrite zip_extract.
  by rewrite (bind_all_graph ∅ (λ f, default fill (m !! f))).
Qed.

Lemma replayed_dom header fill m :
  dom (replayed header fill m) = list_to_set header.
Proof.
  unfold replayed. rewrite bind_all_dom, zip_extract, dom_empty_L.
  rewrite (left_id_L ∅ (∪)), <- list_fmap_compose. f_equal.
  apply list_fmap_id.
Qed.

Lemma extract_replayed header fill m :
  wrtr_utils.extract header fill (replayed header fill m)
  = wrtr_utils.extract header fill m.
Proof.
  unfold wrtr_utils.extract. apply list_fmap_ext. intros i f Hi.
  rewrite replayed_lookup, decide_True; [done|].
  apply list_elem_of_lookup. by exists i.
Qed.

Lemma minimal_header_elem fields maps f :
  f ∈ minimal_header fields maps ↔ f ∈ fields ∧ f ∈ used_keys maps.
Proof. unfold minimal_header. rewrite list_elem_of_filter. tauto. Qed.

Lemma minimal_header_replayed fields maps fill :
  minimal_header fields
    (replayed (minimal_header fields maps) fill <$> maps)
  = minimal_header fields maps.
Proof.
  unfold minimal_header at 1 3. apply filter_ext_in. intros f Hf.
  unfold used_keys. rewrite !elem_of_union_list. split.
  - intros (X & HX & HfX). apply list_elem_of_fmap in HX as (m' & -> & Hm').
    apply list_elem_of_fmap in Hm' as (m & -> & Hm).
    rewrite replayed_dom, elem_of_list_to_set, minimal_header_elem in HfX.
    destruct HfX as [_ Hused]. unfold used_keys in Hused.
    by apply elem_of_union_list in Hused.
  - intros (X & HX & HfX). apply list_elem_of_fmap in HX as (m & -> & Hm).
    exists (dom (replayed (minimal_header fields maps) fill m)). split.
    + apply list_elem_of_fmap_2. by apply list_elem_of_fmap_2.
    + rewrite replayed_dom, elem_of_list_to_set, minimal_header_elem.
      split; [done|]. unfold used_keys. apply elem_of_union_list.
      exists (dom m). split; [|done]. by apply list_elem_of_fmap_2.
Qed.

End read_back_facts.

(** C2 (amended).  A sequence of mappings is written through a minimizing
    [DictWriter] without [include].  The header row holds exactly the
    declared fields that are keys of some mapping, in declared order, which
    is the union of the keys present when every key is a declared field;
    the rows after it are the values extracted for each mapping.  The rows
    are then read back by [dict_reader] with its defaults, from any
    tokenizer run that yields the rows written.  When the header is not
    empty, no text written has leading or trailing whitespace and no data
    row written equals the header row, the reader ends without error and
    yields one mapping per mapping written, in order, with exactly the
    header names as keys, each bound to the written value or, where the
    mapping had no such key, to [rest_val] (the empty string without one).
    Writing these mappings again gives the same rows, and reading those back
    the same mappings. *)
Theorem minimized_round_trip fobj fields rest_val maps :
  let header := minimal_header fields maps in
  let fill := default "" rest_val in
  let back := replayed header fill <$> maps in
  (written fobj fields rest_val maps
   = header :: (wrtr_utils.extract header fill <$> maps)
   ∧ sublist header fields
   ∧ (∀ f, f ∈ header ↔ f ∈ fields ∧ f ∈ used_keys maps)
   ∧ (used_keys maps ⊆ list_to_set fields →
      list_to_set header = used_keys maps))
  ∧ (header ≠ [] →
     Forall (Forall trimmed) (written fobj fields rest_val maps) →
     header ∉ (wrtr_utils.extract header fill <$> maps) →
     (∀ rdr : csv_reader, rdr.*1 = written fobj fields rest_val maps →
        rdr_utils.raised (dict_reader rdr None None rdr_utils.defaults) = None
        ∧ read_back rdr = back)
     ∧ (∀ i m, maps !! i = Some m →
          ∃ m', back !! i = Some m'
            ∧ dom m' = list_to_set header
            ∧ ∀ f, f ∈ header → m' !! f = Some (default fill (m !! f)))
     ∧ written fobj fields rest_val back = written fobj fields rest_val maps
     ∧ (∀ rdr' : csv_reader, rdr'.*1 = written fobj fields rest_val back →
          rdr_utils.raised (dict_reader rdr' None None rdr_utils.defaults)
          = None
          ∧ read_back rdr' = back)).
Proof.
  intros header fill back. split.
  - split; [apply written_rows|]. split; [apply sublist_filter|].
    split; [intros f; apply minimal_header_elem|].
    intros Hkeys. apply set_eq. intros f.
    rewrite elem_of_list_to_set. unfold header.
    rewrite minimal_header_elem. split; [tauto|].
    intros Hf. split; [|done].
    apply Hkeys in Hf. by apply elem_of_list_to_set in Hf.
  - intros Hhdr Htrim Hdup.
    assert (written fobj fields rest_val back
            = written fobj fields rest_val maps) as Hagain.
    { rewrite !written_rows. unfold back, header, fill.
      rewrite minimal_header_replayed. f_equal.
      rewrite <- list_fmap_compose. apply list_fmap_ext. intros i m _.
      apply extract_replayed. }
    rewrite written_rows in Htrim. fold header fill in Htrim.
    assert (Forall (λ r, length r = length header ∧ r ≠ header)
              (wrtr_utils.extract header fill <$> maps)) as Hrows.
    { apply Forall_forall. intros r Hr. split.
      - apply list_elem_of_fmap in Hr as (m & -> & _).
        unfold wrtr_utils.extract. by rewrite length_fmap.
      - by intros ->. }
    assert (∀ rdr : csv_reader, rdr.*1 = written fobj fields rest_val maps →
              rdr_utils.raised (dict_reader rdr None None rdr_utils.defaults)
              = None
              ∧ read_back rdr = back) as Hread.
    { intros rdr Hrdr. rewrite written_rows in Hrdr. fold header fill in Hrdr.
      destruct (dict_reader_replays rdr _ _ Hrdr Hhdr Htrim Hrows)
        as (Hraised & _ & Hback).
      rewrite <- list_fmap_compose in Hback. done. }
    split; [exact Hread|]. split; [|split; [exact Hagain|]].
    + intros i m Hi. exists (replayed header fill m). split.
      * unfold back. by rewrite list_lookup_fmap, Hi.
      * split; [apply replayed_dom|].
        intros f Hf. by rewrite replayed_lookup, decide_True.
    + intros rdr' Hrdr'. apply Hread. by rewrite <- Hagain.
Qed.

Lemma minimized_round_trip_witness :
  written 0 ["a"; "b"; "c"] (Some "-") sparse_maps
  = [["a"; "c"]; ["1"; "3"]; ["-"; "x"]]
  ∧ read_back (zip (written 0 ["a"; "b"; "c"] (Some "-") sparse_maps) [1; 2; 3])
    = [{["a" := "1"; "c" := "3"]}; {["a" := "-"; "c" := "x"]}]
  ∧ read_back
      (zip (written 0 ["a"; "b"; "c"] (Some "-")
              [{["a" := "1"; "c" := "3"]}; {["a" := "-"; "c" := "x"]}])
         [1; 2; 3])
    = [{["a" := "1"; "c" := "3"]}; {["a" := "-"; "c" := "x"]}].
Proof.
  assert (minimal_header ["a"; "b"; "c"] sparse_maps ≠ []) as Hhdr
    by (apply (bool_decide_unpack _); vm_compute; exact I).
  assert (Forall (Forall trimmed)
            (written 0 ["a"; "b"; "c"] (Some "-") sparse_maps)) as Htrim
    by (apply (bool_decide_unpack _); vm_compute; exact I).
  assert (minimal_header ["a"; "b"; "c"] sparse_maps
          ∉ (wrtr_utils.extract (minimal_header ["a"; "b"; "c"] sparse_maps)
               (default "" (Some "-")) <$> sparse_maps)) as Hdup
    by (apply (bool_decide_unpack _); vm_compute; exact I).
  destruct (minimized_round_trip 0 ["a"; "b"; "c"] (Some "-") sparse_maps)
    as ((Hw & _) & Hreplay).
  destruct (Hreplay Hhdr Htrim Hdup) as (Hread & _ & _ & Hread').
  split; [exact Hw|]. split.
  - refine (proj2 (Hread _ _)). vm_compute. reflexivity.
  - refine (proj2 (Hread' _ _)). vm_compute. reflexivity.
Defined.

(** C2, as stated, fails: of three mappings written under the fields a,b
    the second holds the values a,b; its row equals the header row and
    [dict_reader] drops it, so that two mappings come back. *)
Lemma round_trip_drops_header_like_row :
  written 0 ["a"; "b"] None header_like_maps
  = [["a"; "b"]; ["1"; "2"]; ["a"; "b"]; ["3"; "4"]]
  ∧ read_back (zip (written 0 ["a"; "b"] None header_like_maps) [1; 2; 3; 4])
    = [{["a" := "1"; "b" := "2"]}; {["a" := "3"; "b" := "4"]}].
Proof. split; vm_compute; reflexivity. Qed.

(** * Further properties of the code *)

(** ** Histories of a list writer *)

Ltac run_writer :=
  unfold Writer_opened, Writer_closed, forward, opening, closing, source_of;
  run_method.

Section Writer_history_facts.

Implicit Types (handler : option (row → option row)) (log : list event).
Implicit Types (cs : list Writer.call) (managed : bool) (fobj : handle).

Lemma Writer_init_opened managed fobj handler log :
  Writer.__init__ (source_of managed fobj) true handler (Writer.new, log)
  = (Ok (), (Writer_opened handler fobj managed, log ++ opening managed fobj)).
Proof. destruct managed; run_writer; by rewrite ?app_nil_r. Qed.

Lemma Writer_call_on_closed handler managed log c :
  Writer.do_call c (Writer_closed handler managed, log)
  = (match c with
     | Writer.Write data =>
         match forward handler data with
         | Some _ => Raise AttributeError
         | None => Ok ()
         end
     | _ => Ok ()
     end, (Writer_closed handler managed, log)).
Proof.
  destruct c as [| | |data]; try reflexivity.
  run_writer. destruct handler as [h|]; [|done].
  by destruct (h data).
Qed.

Lemma Writer_calls_on_closed handler managed log cs :
  Writer.do_calls cs (Writer_closed handler managed, log)
  = (Writer_closed handler managed, log).
Proof.
  induction cs as [|c cs IH]; [done|].
  unfold Writer.do_calls in *. cbn [foldl].
  by rewrite Writer_call_on_closed.
Qed.

Lemma Writer_write_on_opened handler fobj managed log data :
  Writer.do_call (Writer.Write data) (Writer_opened handler fobj managed, log)
  = (Ok (), (Writer_opened handler fobj managed,
             log ++ (EvRow fobj <$> option_list (forward handler data)))).
Proof.
  run_writer. destruct handler as [h|]; [|done].
  destruct (h data); by rewrite ?app_nil_r.
Qed.

Lemma Writer_close_on_opened handler fobj managed log c :
  Writer.is_close c = true →
  Writer.do_call c (Writer_opened handler fobj managed, log)
  = (Ok (), (Writer_closed handler managed, log ++ closing managed fobj)).
Proof.
  destruct c as [| | |data]; [| | |done]; intros _.
  all: destruct managed; run_writer; by rewrite ?app_nil_r.
Qed.

Lemma omap_forward_cons handler data rows :
  omap (forward handler) (data :: rows)
  = option_list (forward handler data) ++ omap (forward handler) rows.
Proof. cbn [omap list_omap]. by destruct (forward handler data). Qed.

Lemma Writer_calls_on_opened handler fobj managed log cs :
  Writer.do_calls cs (Writer_opened handler fobj managed, log)
  = (if existsb Writer.is_close cs then Writer_closed handler managed
     else Writer_opened handler fobj managed,
     log ++ (EvRow fobj <$> omap (forward handler) (writes_before_close cs))
     ++ (if existsb Writer.is_close cs then closing managed fobj else [])).
Proof.
  revert log. induction cs as [|c cs IH]; intros log.
  - simpl. by rewrite app_nil_r.
  - destruct (Writer.is_close c) eqn:Hc.
    + unfold Writer.do_calls. cbn [foldl existsb]. rewrite Hc. cbn [orb].
      rewrite Writer_close_on_opened by done. cbn [snd].
      fold (Writer.do_calls cs (Writer_closed handler managed,
                                log ++ closing managed fobj)).
      rewrite Writer_calls_on_closed. by destruct c.
    + destruct c as [| | |data]; try done.
      unfold Writer.do_calls. cbn [foldl existsb Writer.is_close orb].
      rewrite Writer_write_on_opened. cbn [snd].
      fold (Writer.do_calls cs
              (Writer_opened handler fobj managed,
               log ++ (EvRow fobj <$> option_list (forward handler data)))).
      rewrite IH. cbn [writes_before_close].
      rewrite omap_forward_cons, fmap_app, <- !app_assoc. reflexivity.
Qed.

(** X1.  After a successful construction, whatever calls are made on a
    [Writer], the log is the opening of the stream (when the writer opened
    it), then one row for each [write] made before the first [close],
    [__exit__] or [__del__] that the handler did not drop, in the order of
    the calls, then the closing of the stream (when the writer opened it and
    some call closed).  Writes made after closing leave nothing, and the
    instance ends closed, without its references, exactly when some call
    closed. *)
Theorem Writer_history managed fobj handler cs :
  let s := Writer.do_calls cs
             (Writer.__init__ (source_of managed fobj) true handler
                (Writer.new, [])).2 in
  let closed := existsb Writer.is_close cs in
  s.1 = (if closed then Writer_closed handler managed
         else Writer_opened handler fobj managed)
  ∧ s.2 = opening managed fobj
          ++ (EvRow fobj <$> omap (forward handler) (writes_before_close cs))
          ++ (if closed then closing managed fobj else [])
  ∧ rows_written fobj s.2 = omap (forward handler) (writes_before_close cs)
  ∧ left_open s.2 = (if closed || negb managed then [] else [fobj]).
Proof.
  intros s closed. subst s.
  rewrite Writer_init_opened. cbn [snd].
  rewrite Writer_calls_on_opened. fold closed. cbn [fst snd app].
  split; [done|]. split; [done|]. split.
  - rewrite !rows_written_app, rows_written_rows.
    destruct managed, closed; cbn; by rewrite ?app_nil_r.
  - assert (∀ rows tail, left_open ((EvRow fobj <$> rows) ++ tail)
                         = left_open tail) as Hrows.
    { intros rows tail. induction rows as [|r rows IH]; [done|].
      by rewrite fmap_cons. }
    destruct managed; cbn [opening closing app orb negb].
    + cbn [left_open]. rewrite Hrows. destruct closed.
      * rewrite bool_decide_eq_true_2; [done|].
        apply elem_of_app. right. by left.
      * rewrite bool_decide_eq_false_2; [done|].
        rewrite app_nil_r, list_elem_of_fmap. by intros (r & ? & _).
    + rewrite Hrows. by destruct closed.
Qed.

(** X2.  Once a [Writer] has been closed, by any of the calls of its
    history, a further [write] sends nothing to the stream and changes
    nothing: it returns when the handler drops the record and fails on the
    missing sink otherwise. *)
Theorem Writer_write_after_close managed fobj handler cs data :
  existsb Writer.is_close cs = true →
  let s := Writer.do_calls cs
             (Writer.__init__ (source_of managed fobj) true handler
                (Writer.new, [])).2 in
  Writer.write data s
  = (match forward handler data with
     | Some _ => Raise AttributeError
     | None => Ok ()
     end, s).
Proof.
  intros Hcs s. subst s. rewrite Writer_init_opened. cbn [snd].
  rewrite Writer_calls_on_opened, Hcs.
  apply (Writer_call_on_closed handler managed _ (Writer.Write data)).
Qed.

Lemma Writer_write_after_close_witness :
  Writer.write ["late"]
    (Writer.do_calls [Writer.Write ["a"]; Writer.Close]
       (Writer.__init__ (source_of true 0) true None (Writer.new, [])).2)
  = (Raise AttributeError,
     (Writer_closed None true, [EvOpen 0; EvRow 0 ["a"]; EvClose 0])).
Proof.
  exact (Writer_write_after_close true 0 None
           [Writer.Write ["a"]; Writer.Close] ["late"] eq_refl).
Defined.

End Writer_history_facts.

(** ** Construction of the mapped writers, continued *)

Section mapped_construction_facts.

Implicit Types (src : source) (log : list event) (fields : list col).
Implicit Types (include : option (list string)).

Lemma include_extras_empty fields include :
  (list_to_set (default [] include) ∖ list_to_set (col_name <$> fields)
   : gset string) = ∅
  ↔ Forall (λ x, x ∈ col_name <$> fields) (default [] include).
Proof.
  rewrite Forall_forall. split.
  - intros Hempty x Hx. destruct (decide (x ∈ col_name <$> fields)); [done|].
    assert (x ∈ (∅ : gset string)) as Habs; [|by apply elem_of_empty in Habs].
    rewrite <- Hempty, elem_of_difference, !elem_of_list_to_set. done.
  - intros Hall. apply set_eq. intros x.
    rewrite elem_of_difference, !elem_of_list_to_set, elem_of_empty.
    split; [|done]. intros [Hx Hnot]. apply Hnot. by apply Hall.
Qed.

(** X3.  With [minimize], once the stream is open and the sink made, the
    construction of a [DictWriter] or [ObjWriter] accepts an [include] list
    exactly when each of its names is the name of a declared field, given
    as a string or as a column object; no [include] at all is accepted.  An
    accepted construction succeeds as soon as the spool can be made.  A
    rejected one raises the error whose set holds exactly the included
    names that are not field names. *)
Theorem include_accepted_by_names src fields spool_ok handler include rest_val
    extras_action log :
  let names := col_name <$> fields in
  let rd := DictWriter.__init__ src fields true spool_ok handler true include
              rest_val extras_action (_MapWriter.new, log) in
  let ro := ObjWriter.__init__ src fields true spool_ok handler true include
              rest_val (_MapWriter.new, log) in
  src ≠ BadPath →
  (Forall (λ x, x ∈ names) (default [] include) →
   rd.1 = (if spool_ok then Ok () else Raise TempfileError) ∧ ro.1 = rd.1)
  ∧ (¬ Forall (λ x, x ∈ names) (default [] include) →
     ∃ extras : gset string,
       rd.1 = Raise (ValueError_include
                       "include specifies fields not specified" extras)
       ∧ ro.1 = rd.1
       ∧ ∀ x, x ∈ extras ↔ x ∈ default [] include ∧ x ∉ names).
Proof.
  intros names rd ro Hsrc.
  destruct (DictWriter_init_outcome src fields true spool_ok handler true
              include rest_val extras_action log) as [Hd _].
  destruct (ObjWriter_init_outcome src fields true spool_ok handler true
              include rest_val log) as [Ho _].
  cbv zeta in Hd, Ho. fold rd in Hd. fold ro in Ho. fold names in Hd, Ho.
  assert (∀ r, writer_outcome src true r = r) as Hout.
  { intros r. by destruct src. }
  rewrite Hout in Hd, Ho. split.
  - intros Hall. apply include_extras_empty in Hall. fold names in Hall.
    rewrite bool_decide_eq_false_2 in Hd, Ho by (by intros Hne).
    by rewrite Ho, Hd.
  - intros Hnot.
    assert ((list_to_set (default [] include) ∖ list_to_set names
             : gset string) ≠ ∅) as Hne.
    { intros Hempty. by apply Hnot, include_extras_empty. }
    rewrite bool_decide_eq_true_2 in Hd, Ho by done.
    eexists. split; [exact Hd|]. split; [by rewrite Ho, Hd|].
    intros x. by rewrite elem_of_difference, !elem_of_list_to_set.
Qed.

Lemma include_accepted_by_names_witness :
  (DictWriter.__init__ (Path 0) [Name "a"; Column "b"] true true None true
     (Some ["b"]) None "raise" (_MapWriter.new, [])).1 = Ok ().
Proof.
  assert (Forall (λ x, x ∈ col_name <$> [Name "a"; Column "b"])
            (default [] (Some ["b"]))) as Hall
    by (apply (bool_decide_unpack _); vm_compute; exact I).
  exact (proj1 (proj1 (include_accepted_by_names (Path 0)
                         [Name "a"; Column "b"] true None (Some ["b"]) None
                         "raise" [] ltac:(discriminate)) Hall)).
Defined.

(** X4.  A construction of a [DictWriter] that succeeds leaves these
    attributes: the fields are the names of the declared columns; the inner
    [Writer] is open on the stream and has no handler, the handler given
    staying on the mapped writer; with [minimize] the used fields start as
    the set of [include] and an empty spool has been made after the stream
    was opened; without [minimize] no spool is made and [include] is kept
    but not read.  The instance is marked not closed. *)
Theorem DictWriter_constructed managed fobj fields handler minimize include
    rest_val extras_action log :
  let names := col_name <$> fields in
  Forall (λ x, x ∈ names) (default [] include) ∨ minimize = false →
  DictWriter.__init__ (source_of managed fobj) fields true true handler
    minimize include rest_val extras_action (_MapWriter.new, log)
  = (Ok (),
     (_MapWriter.mk handler minimize include rest_val (Some extras_action)
        names (list_to_set names) (Some (Writer_opened None fobj managed))
        (if minimize then list_to_set (default [] include) else ∅)
        (if minimize then Some [] else None) false,
      (log ++ opening managed fobj) ++ (if minimize then [EvSpool] else []))).
Proof.
  intros names Hinc.
  destruct minimize.
  - destruct Hinc as [Hall|?]; [|done].
    apply include_extras_empty in Hall.
    destruct managed; run_writer; run_map_method.
    all: rewrite bool_decide_eq_false_2 by (by intros Hne).
    all: by rewrite ?app_nil_r, <- ?app_assoc.
  - destruct managed; run_writer; run_map_method.
    all: by rewrite ?app_nil_r.
Qed.

Lemma DictWriter_constructed_witness :
  DictWriter.__init__ (source_of true 0) [Name "a"; Column "b"] true true
    (Some Some) true (Some ["b"]) (Some "-") "raise" (_MapWriter.new, [])
  = (Ok (),
     (_MapWriter.mk (Some Some) true (Some ["b"]) (Some "-") (Some "raise")
        ["a"; "b"] (list_to_set ["a"; "b"])
        (Some (Writer_opened None 0 true)) (list_to_set ["b"]) (Some [])
        false,
      ([] ++ opening true 0) ++ [EvSpool])).
Proof.
  assert (Forall (λ x, x ∈ col_name <$> [Name "a"; Column "b"])
            (default [] (Some ["b"]))) as Hall
    by (apply (bool_decide_unpack _); vm_compute; exact I).
  exact (DictWriter_constructed true 0 [Name "a"; Column "b"] (Some Some) true
           (Some ["b"]) (Some "-") "raise" [] (or_introl Hall)).
Defined.

(** X5.  [ObjWriter] is constructed as [DictWriter] is, apart from the
    attribute [extras_action], which it does not set: on the same arguments
    both end with the same result and the same events, and the same
    attributes otherwise. *)
Theorem ObjWriter_as_DictWriter src fields kwargs_ok spool_ok handler minimize
    include rest_val extras_action log :
  let rd := DictWriter.__init__ src fields kwargs_ok spool_ok handler minimize
              include rest_val extras_action (_MapWriter.new, log) in
  let ro := ObjWriter.__init__ src fields kwargs_ok spool_ok handler minimize
              include rest_val (_MapWriter.new, log) in
  ro.1 = rd.1 ∧ ro.2.2 = rd.2.2
  ∧ ro.2.1 = _MapWriter.set_extras_action None rd.2.1.
Proof.
  destruct src as [fobj| |fobj], kwargs_ok; run_map_method.
  all: try done.
  all: destruct minimize; try done.
  all: case_bool_decide; try done.
  all: by destruct spool_ok.
Qed.

End mapped_construction_facts.

(** ** The numbered records of [reader_gen] *)

Section reader_gen_more_facts.

Implicit Types (rdr : csv_reader) (l : Line).

Lemma omap_keep_if {A} (keep : A → bool) (xs : list A) :
  omap (keep_if keep) xs = filter (λ x, keep x = true) xs.
Proof.
  induction xs as [|x xs IH]; [done|].
  cbn [omap list_omap]. rewrite filter_cons, IH. unfold keep_if.
  destruct (keep x); [by rewrite decide_True|by rewrite decide_False].
Qed.

Lemma length_omap_le {A B} (f : A → option B) (xs : list A) :
  length (omap f xs) ≤ length xs.
Proof.
  induction xs as [|x xs IH]; [done|].
  cbn [omap list_omap]. destruct (f x); simpl; lia.
Qed.

(** X6.  The handler of [reader_gen] sees the records after they have been
    numbered.  A handler that keeps or drops, as those of the doctests,
    yields the kept records of the run without handler, in order and with
    the line numbers they have there: dropping a record renumbers nothing.
    Whatever the handler, no more records are yielded than the tokenizer
    produced, and exactly as many without a handler. *)
Theorem reader_gen_handler_filters rdr :
  (∀ keep, reader_gen rdr (Some (keep_if keep))
           = filter (λ l, keep l = true) (reader_gen rdr None))
  ∧ (∀ handler, length (reader_gen rdr handler) ≤ length rdr)
  ∧ length (reader_gen rdr None) = length rdr.
Proof.
  unfold reader_gen. split; [|split].
  - intros keep. apply omap_keep_if.
  - intros [h|].
    + etrans; [apply length_omap_le|]. by rewrite reader_gen_inner_length.
    + by rewrite reader_gen_inner_length.
  - apply reader_gen_inner_length.
Qed.

Lemma reader_gen_inner_bounds last_end rdr i l rec n :
  csv_reader_ok last_end rdr = true →
  reader_gen_inner last_end rdr !! i = Some l →
  rdr !! i = Some (rec, n) →
  data l = rec ∧ last_end < line_num l ∧ line_num l ≤ n.
Proof.
  revert last_end i.
  induction rdr as [|[r0 n0] rdr IH]; intros last_end i Hok Hl Hr; [done|].
  cbn [csv_reader_ok] in Hok. apply andb_true_iff in Hok as [Hlt Hok].
  apply bool_decide_eq_true in Hlt.
  destruct i as [|i]; simpl in Hl, Hr.
  - injection Hl as <-. injection Hr as <- <-. simpl. split; [done|lia].
  - destruct (IH n0 i Hok Hl Hr) as (Hd & Hlo & Hhi). split; [done|]. lia.
Qed.

Lemma reader_gen_inner_increasing last_end rdr i j li lj :
  csv_reader_ok last_end rdr = true →
  i < j →
  reader_gen_inner last_end rdr !! i = Some li →
  reader_gen_inner last_end rdr !! j = Some lj →
  line_num li < line_num lj.
Proof.
  revert last_end i j.
  induction rdr as [|[r0 n0] rdr IH]; intros last_end i j Hok Hij Hi Hj;
    [done|].
  pose proof Hok as Hok0.
  cbn [csv_reader_ok] in Hok. apply andb_true_iff in Hok as [Hlt Hok].
  apply bool_decide_eq_true in Hlt.
  destruct j as [|j]; [lia|]. simpl in Hj.
  destruct i as [|i]; simpl in Hi.
  - injection Hi as <-. simpl.
    assert (is_Some (rdr !! j)) as [[rec n] Hr].
    { apply lookup_lt_is_Some. rewrite <- (reader_gen_inner_length n0).
      by eapply lookup_lt_Some. }
    destruct (reader_gen_inner_bounds n0 rdr j lj rec n Hok Hj Hr)
      as (_ & Hlo & _).
    lia.
  - apply (IH n0 i j); [done|lia|done|done].
Qed.

(** X7.  Over a tokenizer run whose line counter grows with every record,
    [reader_gen] without handler yields, for the record of each index, a line
    with the fields of that record and a line number that is at least 1 and
    at most the value of the counter after the record; the line numbers grow
    strictly along the records, so that a line number names one record. *)
Theorem reader_gen_line_nums_increase rdr :
  csv_reader_ok 0 rdr = true →
  (∀ i l rec n, reader_gen rdr None !! i = Some l → rdr !! i = Some (rec, n) →
     data l = rec ∧ 1 ≤ line_num l ∧ line_num l ≤ n)
  ∧ (∀ i j li lj, i < j →
       reader_gen rdr None !! i = Some li →
       reader_gen rdr None !! j = Some lj →
       line_num li < line_num lj)
  ∧ NoDup (line_num <$> reader_gen rdr None).
Proof.
  intros Hok. unfold reader_gen.
  assert (∀ i j li lj, i < j →
            reader_gen_inner 0 rdr !! i = Some li →
            reader_gen_inner 0 rdr !! j = Some lj →
            line_num li < line_num lj) as Hinc.
  { intros i j li lj. by apply reader_gen_inner_increasing. }
  split; [|split; [done|]].
  - intros i l rec n Hl Hr.
    destruct (reader_gen_inner_bounds 0 rdr i l rec n Hok Hl Hr)
      as (Hd & Hlo & Hhi).
    split; [done|]. lia.
  - apply NoDup_alt. intros i j x Hi Hj.
    rewrite list_lookup_fmap in Hi, Hj.
    destruct (reader_gen_inner 0 rdr !! i) as [li|] eqn:Hli; [|done].
    destruct (reader_gen_inner 0 rdr !! j) as [lj|] eqn:Hlj; [|done].
    simpl in Hi, Hj. injection Hi as Hi. injection Hj as Hj.
    destruct (Nat.lt_trichotomy i j) as [Hlt|[Heq|Hgt]]; [|done|].
    + pose proof (Hinc i j li lj Hlt Hli Hlj). lia.
    + pose proof (Hinc j i lj li Hgt Hlj Hli). lia.
Qed.

Lemma reader_gen_line_nums_increase_witness :
  NoDup (line_num <$> reader_gen multi_line_run None).
Proof.
  exact (proj2 (proj2 (reader_gen_line_nums_increase multi_line_run eq_refl))).
Defined.

End reader_gen_more_facts.

(** ** The readers and their source *)

Section generator_facts.

Implicit Types (rdr : csv_reader) (handler : option (Line → option Line)).
Implicit Types (g : gen) (log : list src_event) (todo : plan).

Lemma reader_gen_next_inv opens rdr handler g log :
  gen_inv (g, log) →
  gen_inv (reader_gen_next opens rdr handler g log).2.
Proof.
  unfold gen_inv. destruct g as [|[|l rest]|]; simpl.
  - intros ->. destruct opens; [|by left].
    destruct (reader_gen rdr handler); simpl; [by right|done].
  - intros ->. by right.
  - done.
  - done.
Qed.

Lemma reader_gen_pulls_inv k opens rdr handler s :
  gen_inv s → gen_inv (reader_gen_pulls k opens rdr handler s).
Proof.
  revert s. induction k as [|k IH]; intros [g log] Hs; [done|].
  cbn [reader_gen_pulls fst snd]. apply IH. by apply reader_gen_next_inv.
Qed.

Lemma reader_gen_close_inv g log :
  gen_inv (g, log) →
  (reader_gen_close g log).1 = Finished
  ∧ ((reader_gen_close g log).2 = []
     ∨ (reader_gen_close g log).2 = [Entered; Exited]).
Proof.
  unfold gen_inv. destruct g; simpl.
  - intros ->. split; [done|by left].
  - intros ->. split; [done|by right].
  - done.
Qed.

Lemma mapped_resume_inv opens rdr handler g todo log :
  gen_inv (g, log) → mapped_inv (mapped_resume opens rdr handler g todo log).
Proof.
  intros Hg. unfold mapped_resume.
  destruct todo as [|[k out] todo].
  - unfold mapped_inv. simpl. by apply reader_gen_close_inv.
  - pose proof (reader_gen_pulls_inv k opens rdr handler (g, log) Hg) as Hs.
    destruct (reader_gen_pulls k opens rdr handler (g, log)) as [g' log'].
    destruct out; unfold mapped_inv; simpl; [done|..];
      by apply reader_gen_close_inv.
Qed.

Lemma mapped_next_inv opens rdr handler todo s :
  mapped_inv s → mapped_inv (mapped_next opens rdr handler todo s).
Proof.
  destruct s as [[|g todo'|] log]; unfold mapped_next; simpl.
  - unfold mapped_inv. simpl. intros ->. by apply mapped_resume_inv.
  - unfold mapped_inv at 1. simpl. apply mapped_resume_inv.
  - done.
Qed.

Lemma mapped_close_inv s :
  mapped_inv s →
  (mapped_close s).1 = Done
  ∧ ((mapped_close s).2 = [] ∨ (mapped_close s).2 = [Entered; Exited]).
Proof.
  destruct s as [[|g todo'|] log]; unfold mapped_close, mapped_inv; simpl.
  - intros ->. split; [done|by left].
  - intros Hg. split; [done|]. by apply reader_gen_close_inv.
  - done.
Qed.

Lemma mapped_ops_inv opens rdr handler todo ops :
  mapped_inv (mapped_ops opens rdr handler todo ops).
Proof.
  unfold mapped_ops. induction ops as [|o ops IH] using rev_ind; [done|].
  rewrite foldl_snoc. destruct o.
  - by apply mapped_next_inv.
  - unfold mapped_inv. destruct (mapped_close_inv _ IH) as [-> Hlog]. done.
Qed.

Lemma reader_gen_drain_suspended fuel opens rdr handler rest log :
  length rest < fuel →
  reader_gen_drain fuel opens rdr handler (Suspended rest, log)
  = (rest, (Finished, log ++ [Exited])).
Proof.
  revert rest. induction fuel as [|fuel IH]; intros rest Hfuel; [lia|].
  destruct rest as [|l rest]; [done|].
  cbn [reader_gen_drain reader_gen_next fst snd].
  rewrite IH by (simpl in Hfuel; lia). done.
Qed.

(** X8.  A [reader_gen] generator pulled until it stops yields exactly the
    lines of [reader_gen], entering the source once before the first line
    and leaving it once after the last.  Abandoned after any number of
    pulls and closed, it has left the source if it ever entered it, and it
    never enters the source when it is closed before the first pull or when
    the source cannot be opened. *)
Theorem reader_gen_generator opens rdr handler :
  (∀ fuel, length (reader_gen rdr handler) < fuel →
     reader_gen_drain fuel true rdr handler (Fresh, [])
     = (reader_gen rdr handler, (Finished, [Entered; Exited])))
  ∧ (∀ k, reader_gen_close
            (reader_gen_pulls k opens rdr handler (Fresh, [])).1
            (reader_gen_pulls k opens rdr handler (Fresh, [])).2
          = (Finished,
             if opens && negb (bool_decide (k = 0)) then [Entered; Exited]
             else [])).
Proof.
  split.
  - intros fuel Hfuel. destruct fuel as [|fuel]; [lia|].
    cbn [reader_gen_drain reader_gen_next fst snd].
    destruct (reader_gen rdr handler) as [|l rest]; [done|].
    rewrite reader_gen_drain_suspended by (simpl in Hfuel; lia). done.
  - intros k. destruct k as [|k]; [by rewrite andb_false_r|].
    rewrite andb_true_r. cbn [reader_gen_pulls fst snd negb].
    destruct opens.
    + assert (∀ j s,
                match s.1 with
                | Fresh => False
                | Suspended _ => s.2 = [Entered]
                | Finished => s.2 = [Entered; Exited]
                end →
                reader_gen_close (reader_gen_pulls j true rdr handler s).1
                  (reader_gen_pulls j true rdr handler s).2
                = (Finished, [Entered; Exited])) as Hstarted.
      { induction j as [|j IH]; intros [g log] Hs; simpl in Hs.
        - destruct g; [done| |]; by subst log.
        - cbn [reader_gen_pulls fst snd]. apply IH.
          destruct g as [|[|l rest]|]; [done|..]; by subst log. }
      apply Hstarted. simpl. by destruct (reader_gen rdr handler).
    + assert (∀ j, reader_gen_pulls j false rdr handler (Finished, [])
                   = (Finished, [])) as Hnone.
      { induction j as [|j IH]; [done|]. exact IH. }
      simpl. by rewrite Hnone.
Qed.

Lemma mapped_ops_no_next opens rdr handler todo ops :
  Next ∉ ops →
  (mapped_ops opens rdr handler todo ops).2 = []
  ∧ ((mapped_ops opens rdr handler todo ops).1 = NotStarted
     ∨ (mapped_ops opens rdr handler todo ops).1 = Done).
Proof.
  unfold mapped_ops. induction ops as [|o ops IH] using rev_ind; intros Hnext.
  - split; [done|by left].
  - rewrite foldl_snoc.
    rewrite elem_of_app, list_elem_of_singleton in Hnext.
    destruct o; [exfalso; apply Hnext; by right|].
    destruct IH as [Hlog Hstate]; [intros Hin; apply Hnext; by left|].
    destruct (foldl _ _ ops) as [m log]. simpl in Hlog, Hstate. subst log.
    unfold mapped_close. simpl. destruct Hstate as [-> | ->]; simpl; auto.
Qed.

(** X9.  Whatever the reader of [rdr_utils] does with the lines it pulls,
    and whatever the consumer of [reader], [dict_reader] or [obj_reader]
    does (pulling, stopping early, closing, closing again), the source is
    entered at most once and never left without having been entered; as
    soon as the reader has ended, by exhaustion, by an error or by [close],
    the source has been left if it was entered.  A reader that is closed
    without having been pulled never touches the source. *)
Theorem readers_release_source opens rdr handler todo ops :
  let s := mapped_ops opens rdr handler todo ops in
  (s.2 = [] ∨ s.2 = [Entered] ∨ s.2 = [Entered; Exited])
  ∧ (s.1 = Done → s.2 = [] ∨ s.2 = [Entered; Exited])
  ∧ (mapped_close s).1 = Done
  ∧ ((mapped_close s).2 = [] ∨ (mapped_close s).2 = [Entered; Exited])
  ∧ (Next ∉ ops → s.2 = []).
Proof.
  intros s. pose proof (mapped_ops_inv opens rdr handler todo ops) as Hinv.
  fold s in Hinv. split; [|split; [|split; [|split]]].
  - unfold mapped_inv, gen_inv in Hinv.
    destruct s as [[|[|rest|] todo'|] log]; simpl in *; tauto.
  - intros Hdone. unfold mapped_inv in Hinv. by rewrite Hdone in Hinv.
  - by apply mapped_close_inv.
  - by apply mapped_close_inv.
  - intros Hnext. by destruct (mapped_ops_no_next opens rdr handler todo ops).
Qed.

End generator_facts.

Lemma reader_gen_generator_witness :
  reader_gen_drain 5 true doctest_run None (Fresh, [])
  = (reader_gen doctest_run None, (Finished, [Entered; Exited])).
Proof.
  exact (proj1 (reader_gen_generator true doctest_run None) 5
           ltac:(vm_compute; lia)).
Defined.

Lemma readers_release_source_witness :
  (mapped_ops true doctest_run None [(1, Gives)] [CloseGen; CloseGen]).2 = [].
Proof.
  assert (Next ∉ [CloseGen; CloseGen]) as Hnone
    by (apply (bool_decide_unpack _); vm_compute; exact I).
  exact (proj2 (proj2 (proj2 (proj2
           (readers_release_source true doctest_run None [(1, Gives)]
              [CloseGen; CloseGen])))) Hnone).
Defined.

(** ** The keyword arguments *)

Section kwargs_facts.

Import csv_kwargs.

(** X10.  The keyword arguments [reader_gen] and [Writer.__init__] build for
    [csv] always hold [dialect] and [strict]; each of the other arguments
    is passed with the value given when one is given and is absent when it
    is [None], so that the dialect decides it; nothing else is passed.  A
    reader and a writer made with the same arguments pass the same ones,
    the writer adding only [lineterminator]. *)
Theorem kwargs_hold_given_arguments (a : args) :
  Writer_kwargs a !! "dialect" = Some (PyStr (dialect a))
  ∧ Writer_kwargs a !! "strict" = Some (PyBool (strict a))
  ∧ Writer_kwargs a !! "delimiter" = PyStr <$> delimiter a
  ∧ Writer_kwargs a !! "quotechar" = PyStr <$> quotechar a
  ∧ Writer_kwargs a !! "doublequote" = PyBool <$> doublequote a
  ∧ Writer_kwargs a !! "quoting" = PyInt <$> quoting a
  ∧ Writer_kwargs a !! "lineterminator" = PyStr <$> lineterminator a
  ∧ dom (Writer_kwargs a)
    ⊆ list_to_set ["dialect"; "strict"; "delimiter"; "quotechar";
                   "doublequote"; "quoting"; "lineterminator"]
  ∧ reader_gen_kwargs a = delete "lineterminator" (Writer_kwargs a).
Proof.
  destruct a as [d [de|] [qc|] [dq|] [q|] [lt|] st].
  all: repeat split; try (vm_compute; reflexivity).
  all: apply (bool_decide_unpack _); vm_compute; exact I.
Qed.

End kwargs_facts.
